(** * caddy-auth-jwt: key resolution, key-set import, validator options
      and the Caddyfile directive parser

    A shallow embedding of
      - [pkg/backends/backend.go]   (package [backends]),
      - the [TokenValidatorOptions] file of package [config],
      - the Caddyfile parser [parseCaddyfileTokenValidator] of package [jwt],
    followed by the properties proved about them.

    Conventions.  A Go [string] is a [string] (a sequence of bytes, [len] is
    [String.length]); a [map[string]T] is a [gmap string T]; a value of type
    [interface{}] is a [Value]; a function returning [(T, error)] returns an
    [outcome T], which also records a run-time panic.  Receivers and the
    [*jwt.Token] argument are non-nil pointers. *)

From stdpp Require Import gmap strings list fin_maps.
From Stdlib Require Import ZArith Strings.Byte.

Open Scope string_scope.
Set Warnings "-register-all".

(** ** Go values and results *)

Module Go.

(** [crypto/rsa]: the public part of a key, and a private key embedding it. *)
Record rsa_PublicKey : Type := mk_rsa_PublicKey {
  N : Z;
  E : Z
}.

Record rsa_PrivateKey : Type := mk_rsa_PrivateKey {
  PublicKey : rsa_PublicKey;
  D : Z;
  Primes : list Z
}.

(** The dynamic values an [interface{}] holds in this program: what
    [encoding/json] decodes into an [interface{}] (nil, bool, float64, string,
    slice, map), a byte slice, and pointers to RSA keys ([None] is the nil
    pointer of that type). *)
Inductive Value : Type :=
| VNil
| VBool (b : bool)
| VFloat64 (bits : Z)
| VString (s : string)
| VSlice (l : list Value)
| VMap (fields : list (string * Value))
| VBytes (b : list byte)
| VRSAPublicKey (p : option rsa_PublicKey)
| VRSAPrivateKey (p : option rsa_PrivateKey).

(** [m[k]] on a [map[string]interface{}]: the zero value (nil) when absent. *)
Definition index (m : gmap string Value) (k : string) : Value :=
  default VNil (m !! k).

(** The type assertion [v.(string)], comma-ok form. *)
Definition assert_string (v : Value) : option string :=
  match v with
  | VString s => Some s
  | _ => None
  end.

(** The result of a call: the value returned with a nil error, the error
    returned (with a nil or zero value), or a run-time panic. *)
Inductive outcome (E A : Type) : Type :=
| Return (a : A)
| Fail (e : E)
| Panic.

Arguments Return {E A} a.
Arguments Fail {E A} e.
Arguments Panic {E A}.

(** Sequencing: an error or a panic of the first call ends the function. *)
#[export] Instance outcome_bind {E : Type} : MBind (outcome E) :=
  fun A B f x =>
    match x with
    | Return a => f a
    | Fail e => Fail e
    | Panic => Panic
    end.

Definition returned {E A : Type} (x : outcome E A) : option A :=
  match x with
  | Return a => Some a
  | _ => None
  end.

End Go.

Export Go.

(** ** Package [backends] *)

Module Backends.

(** [github.com/dgrijalva/jwt-go]: the dynamic type of [token.Method].  The
    library's own methods are the first five; [SigningMethodOther] is a method
    another package registered, [SigningMethodNil] the nil interface. *)
Inductive SigningMethod : Type :=
| SigningMethodHMAC (Name : string)
| SigningMethodRSA (Name : string)
| SigningMethodRSAPSS (Name : string)
| SigningMethodECDSA (Name : string)
| signingMethodNone
| SigningMethodOther (Name : string)
| SigningMethodNil.

(** The fields of [jwt.Token] the backends read. *)
Record Token : Type := mkToken {
  Method : SigningMethod;
  Header : gmap string Value
}.

(** The type assertion of [token.Method] to a pointer to
    [jwtlib.SigningMethodHMAC], comma-ok form. *)
Definition assert_SigningMethodHMAC (m : SigningMethod) : bool :=
  match m with
  | SigningMethodHMAC _ => true
  | _ => false
  end.

(** The type assertion of [token.Method] to a pointer to
    [jwtlib.SigningMethodRSA], comma-ok form. *)
Definition assert_SigningMethodRSA (m : SigningMethod) : bool :=
  match m with
  | SigningMethodRSA _ => true
  | _ => false
  end.

(** Package [errors] of the repository: the errors [backends] returns.  An
    error of another package (net/http, io/ioutil, encoding/json, the JWKS key
    validation) is carried by its message. *)
Inductive error : Type :=
| ErrInvalidSecretLength
| ErrUnexpectedSigningMethod (family : string) (alg : Value)
| ErrUnexpectedKID
| ErrNoRSAKeyFound
| ErrBackendOauthJwksResponseKeysNotFound
| ErrBackendOauthJwksKeysParseFailed (cause : string)
| ErrBackendOauthJwksKeysNotFound
| ErrBackendOauthJwksInvalidKey (cause : string)
| Foreign (message : string).

Abbreviation result := (outcome error).

Definition defaultKeyID : string := "0".

(** [TokenBackend] is the interface to provide key material. *)
Class TokenBackend (B : Type) : Type :=
  ProvideKey : B -> Token -> result Value.

(** [SecretKeyTokenBackend] holds symmetric keys of the HS family. *)
Record SecretKeyTokenBackend : Type := mkSecretKeyTokenBackend {
  secret : list byte
}.

Definition NewSecretKeyTokenBackend (s : string) : result SecretKeyTokenBackend :=
  if (String.length s <? 16)%nat then Fail ErrInvalidSecretLength
  else Return {| secret := String.list_byte_of_string s |}.

Definition SecretKeyTokenBackend_ProvideKey
    (b : SecretKeyTokenBackend) (token : Token) : result Value :=
  if negb (assert_SigningMethodHMAC (Method token)) then
    Fail (ErrUnexpectedSigningMethod "HS" (index (Header token) "alg"))
  else Return (VBytes (secret b)).

#[export] Instance SecretKeyTokenBackend_TokenBackend
  : TokenBackend SecretKeyTokenBackend := SecretKeyTokenBackend_ProvideKey.

(** [RSAKeyTokenBackend] holds asymmetric keys of the RS family. *)
Record RSAKeyTokenBackend : Type := mkRSAKeyTokenBackend {
  secrets : gmap string Value
}.

Definition NewRSAKeyTokenBackend (k : gmap string Value) : RSAKeyTokenBackend :=
  {| secrets := k |}.

(** The type switch both lookups of [ProvideKey] run on the stored value:
    [Some] when a case returns, [None] when no case matches and control
    falls out of the switch.  [&key.PublicKey] dereferences [key]. *)
Definition switch_key (val : Value) : option (result Value) :=
  match val with
  | VRSAPrivateKey (Some key) => Some (Return (VRSAPublicKey (Some (PublicKey key))))
  | VRSAPrivateKey None => Some Panic
  | VRSAPublicKey key => Some (Return (VRSAPublicKey key))
  | _ => None
  end.

Definition RSAKeyTokenBackend_ProvideKey
    (b : RSAKeyTokenBackend) (token : Token) : result Value :=
  if negb (assert_SigningMethodRSA (Method token)) then
    Fail (ErrUnexpectedSigningMethod "RS" (index (Header token) "alg"))
  else
    match assert_string (index (Header token) "kid") with
    | Some kid =>
        match secrets b !! kid with
        | Some val =>
            match switch_key val with
            | Some r => r
            | None => Fail ErrUnexpectedKID
            end
        | None => Fail ErrUnexpectedKID
        end
    | None =>
        match secrets b !! defaultKeyID with
        | Some val =>
            match switch_key val with
            | Some r => r
            | None => Fail ErrNoRSAKeyFound
            end
        | None => Fail ErrNoRSAKeyFound
        end
    end.

#[export] Instance RSAKeyTokenBackend_TokenBackend
  : TokenBackend RSAKeyTokenBackend := RSAKeyTokenBackend_ProvideKey.

(** The identifier [ProvideKey] looks up for a token: the header's [kid] when
    it is a string, the default identifier otherwise. *)
Definition looked_up (token : Token) : string :=
  match assert_string (index (Header token) "kid") with
  | Some kid => kid
  | None => defaultKeyID
  end.

(** A stored value that is an RSA key, with the public key it stands for. *)
Inductive rsa_key_of : Value -> option rsa_PublicKey -> Prop :=
| rsa_key_public (p : option rsa_PublicKey) :
    rsa_key_of (VRSAPublicKey p) p
| rsa_key_private (key : rsa_PrivateKey) :
    rsa_key_of (VRSAPrivateKey (Some key)) (Some (PublicKey key)).

(** The stored values whose dynamic type is a pointer to an RSA key. *)
Definition rsa_typed (val : Value) : bool :=
  match val with
  | VRSAPublicKey _ | VRSAPrivateKey _ => true
  | _ => false
  end.

(** What [FetchKeysURL] calls outside the repository.  [net/http] and
    [io/ioutil] give the response and its body; [encoding/json] decodes the
    body into [data] (a [map[string]interface{}]), encodes [data["keys"]]
    again and decodes that into a slice of pointers to [oauth2.JwksKey]; the
    [oauth2] package of caddy-auth-portal declares [JwksKey] with its field
    [KeyID] and its methods [Validate] (pointer receiver: it returns the key
    as it leaves it, and its error if any) and [GetPublicKey].  An error is
    carried by its message, on the left. *)
Record Externals : Type := mkExternals {
  Response : Type;
  JwksKey : Type;
  http_Get : string -> string + Response;
  ioutil_ReadAll : Response -> string + list byte;
  json_Unmarshal_map : list byte -> string + gmap string Value;
  json_Marshal : Value -> string + list byte;
  json_Unmarshal_keys : list byte -> string + list JwksKey;
  KeyID : JwksKey -> string;
  Validate : JwksKey -> JwksKey * option string;
  GetPublicKey : JwksKey -> Value
}.

(** [if err != nil { return nil, wrap(err) }] around an external call. *)
Definition try {A : Type} (wrap : string -> error) (x : string + A) : result A :=
  match x with
  | inl err => Fail (wrap err)
  | inr a => Return a
  end.

(** The [range keys] loop of [FetchKeysURL] over the map [secrets]. *)
Fixpoint FetchKeysURL_range (X : Externals) (keys : list (JwksKey X))
    (secrets : gmap string Value) : result (gmap string Value) :=
  match keys with
  | [] => Return secrets
  | k :: keys' =>
      let '(k, err) := Validate X k in
      match err with
      | Some err => Fail (ErrBackendOauthJwksInvalidKey err)
      | None =>
          FetchKeysURL_range X keys' (<[KeyID X k := GetPublicKey X k]> secrets)
      end
  end.

Definition FetchKeysURL (X : Externals) (jwks_uri : string)
  : result (gmap string Value) :=
  let secrets : gmap string Value := ∅ in
  resp ← try Foreign (http_Get X jwks_uri);
  respBody ← try Foreign (ioutil_ReadAll X resp);
  data ← try Foreign (json_Unmarshal_map X respBody);
  if negb (bool_decide (is_Some (data !! "keys"))) then
    Fail ErrBackendOauthJwksResponseKeysNotFound
  else
    jwksJSON ← try ErrBackendOauthJwksKeysParseFailed
                   (json_Marshal X (index data "keys"));
    keys ← try Foreign (json_Unmarshal_keys X jwksJSON);
    if (length keys <? 1)%nat then Fail ErrBackendOauthJwksKeysNotFound
    else FetchKeysURL_range X keys secrets.

(** The document served at [jwks_uri] is the JSON object [data]: the request,
    the reading of the body and its decoding all succeed. *)
Definition document (X : Externals) (jwks_uri : string)
    (data : gmap string Value) : Prop :=
  exists resp respBody,
    http_Get X jwks_uri = inr resp /\
    ioutil_ReadAll X resp = inr respBody /\
    json_Unmarshal_map X respBody = inr data.

(** The object [data] has a [keys] field, which decodes to the list [keys]. *)
Definition key_list (X : Externals) (data : gmap string Value)
    (keys : list (JwksKey X)) : Prop :=
  is_Some (data !! "keys") /\
  exists jwksJSON,
    json_Marshal X (index data "keys") = inr jwksJSON /\
    json_Unmarshal_keys X jwksJSON = inr keys.

(** The error of the first key of the list that fails validation. *)
Fixpoint first_invalid (X : Externals) (keys : list (JwksKey X))
  : option string :=
  match keys with
  | [] => None
  | k :: keys =>
      match snd (Validate X k) with
      | Some err => Some err
      | None => first_invalid X keys
      end
  end.

(** The entry under the identifier looked up holds no usable key: it is
    absent, or its type is not one of the two the switch knows. *)
Definition no_rsa_entry (b : RSAKeyTokenBackend) (token : Token) : Prop :=
  forall val, secrets b !! looked_up token = Some val -> rsa_typed val = false.

(** A stored private key replaced by its public part; any other value as it
    is. *)
Definition publicize (val : Value) : Value :=
  match val with
  | VRSAPrivateKey (Some key) => VRSAPublicKey (Some (PublicKey key))
  | _ => val
  end.

(** A key as [Validate] leaves it. *)
Definition validated (X : Externals) (k : JwksKey X) : JwksKey X :=
  fst (Validate X k).

(** The store the [range keys] loop builds over [secrets] when no key is
    refused. *)
Fixpoint imported (X : Externals) (keys : list (JwksKey X))
    (secrets : gmap string Value) : gmap string Value :=
  match keys with
  | [] => secrets
  | k :: keys =>
      imported X keys
        (<[KeyID X (validated X k) := GetPublicKey X (validated X k)]> secrets)
  end.

(** The keys of the list, validated, whose identifier is [id], in order. *)
Definition named (X : Externals) (id : string) (keys : list (JwksKey X))
  : list (JwksKey X) :=
  filter (fun k => KeyID X k = id) (validated X <$> keys).

End Backends.

(** ** Package [config]: [TokenValidatorOptions] *)

Module Config.

(** A heap address; [None] is the nil pointer (or the nil map). *)
Definition loc : Type := positive.

(** [TokenValidatorOptions] provides options for TokenValidator.  [Metadata]
    is a reference to a map, [Replacer] and [Logger] are pointers. *)
Record TokenValidatorOptions : Type := mkTokenValidatorOptions {
  ValidateSourceAddress : bool;
  SourceAddress : string;
  ValidateBearerHeader : bool;
  ValidateMethodPath : bool;
  ValidateAccessListPathClaim : bool;
  ValidateAllowMatchAll : bool;
  Metadata : option loc;
  Replacer : option loc;
  Logger : option loc
}.

(** The part of the heap these functions touch: the allocated option structs
    and the allocated [map[string]interface{}] objects. *)
Record heap : Type := mkHeap {
  structs : gmap loc TokenValidatorOptions;
  maps : gmap loc (gmap string Value)
}.

(** [&TokenValidatorOptions{...}]: a new struct at an unused address. *)
Definition alloc_struct (o : TokenValidatorOptions) (h : heap) : loc * heap :=
  let l := fresh (dom (structs h)) in
  (l, {| structs := <[l := o]> (structs h); maps := maps h |}).

(** [make(map[string]interface{})]: a new empty map at an unused address. *)
Definition make_map (h : heap) : loc * heap :=
  let l := fresh (dom (maps h)) in
  (l, {| structs := structs h; maps := <[l := ∅]> (maps h) |}).

(** [m[k] = v] through a map reference; writing to the nil map panics. *)
Definition map_assign (m : option loc) (k : string) (v : Value) (h : heap)
  : option heap :=
  l ← m;
  content ← maps h !! l;
  Some {| structs := structs h; maps := <[l := <[k := v]> content]> (maps h) |}.

(** [m[k]], comma-ok form, through a map reference; the nil map is empty. *)
Definition map_lookup (m : option loc) (k : string) (h : heap) : option Value :=
  l ← m;
  content ← maps h !! l;
  content !! k.

(** The struct [NewTokenValidatorOptions] builds: every field at its zero
    value. *)
Definition new_options : TokenValidatorOptions :=
  {| ValidateSourceAddress := false;
     SourceAddress := "";
     ValidateBearerHeader := false;
     ValidateMethodPath := false;
     ValidateAccessListPathClaim := false;
     ValidateAllowMatchAll := false;
     Metadata := None;
     Replacer := None;
     Logger := None |}.

Definition NewTokenValidatorOptions (h : heap) : loc * heap :=
  alloc_struct new_options h.

(** [opts.ValidateBearerHeader = v]. *)
Definition set_ValidateBearerHeader (v : bool) (o : TokenValidatorOptions)
  : TokenValidatorOptions :=
  {| ValidateSourceAddress := ValidateSourceAddress o;
     SourceAddress := SourceAddress o;
     ValidateBearerHeader := v;
     ValidateMethodPath := ValidateMethodPath o;
     ValidateAccessListPathClaim := ValidateAccessListPathClaim o;
     ValidateAllowMatchAll := ValidateAllowMatchAll o;
     Metadata := Metadata o;
     Replacer := Replacer o;
     Logger := Logger o |}.

(** [Clone] makes a copy of TokenValidatorOptions without metadata.  [None]
    is the panic of reading a field through a pointer that holds no struct. *)
Definition Clone (opts : loc) (h : heap) : option (loc * heap) :=
  o ← structs h !! opts;
  let '(m, h) := make_map h in
  Some (alloc_struct
    {| ValidateSourceAddress := ValidateSourceAddress o;
       SourceAddress := "";
       ValidateBearerHeader := ValidateBearerHeader o;
       ValidateMethodPath := ValidateMethodPath o;
       ValidateAccessListPathClaim := ValidateAccessListPathClaim o;
       ValidateAllowMatchAll := ValidateAllowMatchAll o;
       Metadata := Some m;
       Replacer := None;
       Logger := Logger o |} h).

(** Every map reference held by a struct of the heap is allocated: what Go's
    memory safety gives of any reachable heap. *)
Definition heap_closed (h : heap) : Prop :=
  forall l o m,
    structs h !! l = Some o -> Metadata o = Some m -> is_Some (maps h !! m).

End Config.

(** ** Package [jwt]: the Caddyfile directive parser *)

Module Caddyfile.

(** *** Access rules *)

(** Modelled from the spec: the struct [AccessListEntry] of package [jwt],
    whose declaration is not among the sources.  The spec gives an Access
    Rule the fields action (allow or deny), claim, values, methods and path;
    the parser's literal for the catch-all rule and its test of [entry.Path]
    name four of them. *)
Record AccessListEntry : Type := mkAccessListEntry {
  Action : string;
  Claim : string;
  Values : list string;
  Methods : list string;
  Path : string
}.

(** Modelled from the spec: the error of an Access Rule operation (package
    [errors], not among the sources).  The spec's kind is [ACLMisconfigured],
    of which it names the empty claim and the duplicate path; any other
    error is carried by its message. *)
Inductive ACLMisconfigured : Type :=
| EmptyClaim
| DuplicatePath
| Misconfigured (message : string).

(** The constructor and the methods of [AccessListEntry] the parser calls,
    whose file is not among the sources.  A method (pointer receiver) returns
    the entry as it leaves it, or its error.  The parser is defined, and its
    properties are proved, for every implementation of them;
    [AccessListSpec] below is the one modelled from the spec. *)
Class AccessListMethods : Type := mkAccessListMethods {
  NewAccessListEntry : AccessListEntry;
  Allow : AccessListEntry -> AccessListEntry;
  Deny : AccessListEntry -> AccessListEntry;
  SetClaim : string -> AccessListEntry -> ACLMisconfigured + AccessListEntry;
  AddValue : string -> AccessListEntry -> ACLMisconfigured + AccessListEntry;
  AddMethod : string -> AccessListEntry -> ACLMisconfigured + AccessListEntry;
  SetPath : string -> AccessListEntry -> ACLMisconfigured + AccessListEntry
}.

(** *** Errors *)

(** An argument of a format string: a string, the error of an Access Rule
    operation, or the message of an [encoding/json] error. *)
Inductive fmt_arg : Type :=
| S_ (s : string)
| E_ (err : ACLMisconfigured)
| M_ (message : string).

(** The errors the parser returns, as the calls that build them:
    [fmt.Errorf(format, args...)] and [h.Errf(format, args...)], which adds the
    position of the dispenser [h]. *)
Inductive config_error (H : Type) : Type :=
| Errorf (format : string) (args : list fmt_arg)
| Errf (h : H) (format : string) (args : list fmt_arg).

Arguments Errorf {H} format args.
Arguments Errf {H} h format args.

(** *** What the parser calls outside the repository *)

(** [httpcaddyfile.Helper]: the token dispenser of Caddy, by the methods the
    parser calls.  A method that moves the cursor returns the dispenser as it
    leaves it. *)
Class Helper (H : Type) : Type := mkHelper {
  Next : H -> bool * H;
  NextArg : H -> bool * H;
  NextBlock : Z -> H -> bool * H;
  Nesting : H -> Z;
  Val : H -> string;
  RemainingArgs : H -> list string * H
}.

(** [encoding/json] on a trusted-token block: [json.Marshal] of the map of
    properties and [json.Unmarshal] of the result into a [CommonTokenConfig]
    (a type of package [jwt] whose declaration is not among the sources). *)
Class TokenConfigJSON (CommonTokenConfig : Type) : Type := mkTokenConfigJSON {
  json_Marshal : gmap string Value -> string + list byte;
  json_Unmarshal : list byte -> string + CommonTokenConfig
}.

(** *** The provider under construction *)

(** The struct [AuthProvider] of package [jwt], by the fields the parser sets
    (its declaration is not among the sources).  [Context_] is the field
    [Context]; [TokenValidatorOptions] is a pointer, [None] when nil. *)
Record AuthProvider (CommonTokenConfig : Type) : Type := mkAuthProvider {
  PrimaryInstance : bool;
  Context_ : string;
  TrustedTokens : list CommonTokenConfig;
  AccessList : list AccessListEntry;
  AuthURLPath : string;
  ValidateMethodPath : bool;
  AuthRedirectQueryDisabled : bool;
  ValidateAccessListPathClaim : bool;
  TokenValidatorOptions : option Config.TokenValidatorOptions;
  PassClaimsWithHeaders : bool;
  ForbiddenURL : string
}.

Arguments mkAuthProvider {CommonTokenConfig}.
Arguments PrimaryInstance {CommonTokenConfig}.
Arguments Context_ {CommonTokenConfig}.
Arguments TrustedTokens {CommonTokenConfig}.
Arguments AccessList {CommonTokenConfig}.
Arguments AuthURLPath {CommonTokenConfig}.
Arguments ValidateMethodPath {CommonTokenConfig}.
Arguments AuthRedirectQueryDisabled {CommonTokenConfig}.
Arguments ValidateAccessListPathClaim {CommonTokenConfig}.
Arguments TokenValidatorOptions {CommonTokenConfig}.
Arguments PassClaimsWithHeaders {CommonTokenConfig}.
Arguments ForbiddenURL {CommonTokenConfig}.

Section Setters.
Context {C : Type}.

Definition set_PrimaryInstance (v : bool) (p : AuthProvider C) : AuthProvider C :=
  mkAuthProvider v (Context_ p) (TrustedTokens p) (AccessList p) (AuthURLPath p)
    (ValidateMethodPath p) (AuthRedirectQueryDisabled p)
    (ValidateAccessListPathClaim p) (TokenValidatorOptions p)
    (PassClaimsWithHeaders p) (ForbiddenURL p).

Definition set_Context (v : string) (p : AuthProvider C) : AuthProvider C :=
  mkAuthProvider (PrimaryInstance p) v (TrustedTokens p) (AccessList p)
    (AuthURLPath p) (ValidateMethodPath p) (AuthRedirectQueryDisabled p)
    (ValidateAccessListPathClaim p) (TokenValidatorOptions p)
    (PassClaimsWithHeaders p) (ForbiddenURL p).

Definition set_TrustedTokens (v : list C) (p : AuthProvider C) : AuthProvider C :=
  mkAuthProvider (PrimaryInstance p) (Context_ p) v (AccessList p)
    (AuthURLPath p) (ValidateMethodPath p) (AuthRedirectQueryDisabled p)
    (ValidateAccessListPathClaim p) (TokenValidatorOptions p)
    (PassClaimsWithHeaders p) (ForbiddenURL p).

Definition set_AccessList (v : list AccessListEntry) (p : AuthProvider C)
  : AuthProvider C :=
  mkAuthProvider (PrimaryInstance p) (Context_ p) (TrustedTokens p) v
    (AuthURLPath p) (ValidateMethodPath p) (AuthRedirectQueryDisabled p)
    (ValidateAccessListPathClaim p) (TokenValidatorOptions p)
    (PassClaimsWithHeaders p) (ForbiddenURL p).

Definition set_AuthURLPath (v : string) (p : AuthProvider C) : AuthProvider C :=
  mkAuthProvider (PrimaryInstance p) (Context_ p) (TrustedTokens p)
    (AccessList p) v (ValidateMethodPath p) (AuthRedirectQueryDisabled p)
    (ValidateAccessListPathClaim p) (TokenValidatorOptions p)
    (PassClaimsWithHeaders p) (ForbiddenURL p).

Definition set_ValidateMethodPath (v : bool) (p : AuthProvider C)
  : AuthProvider C :=
  mkAuthProvider (PrimaryInstance p) (Context_ p) (TrustedTokens p)
    (AccessList p) (AuthURLPath p) v (AuthRedirectQueryDisabled p)
    (ValidateAccessListPathClaim p) (TokenValidatorOptions p)
    (PassClaimsWithHeaders p) (ForbiddenURL p).

Definition set_AuthRedirectQueryDisabled (v : bool) (p : AuthProvider C)
  : AuthProvider C :=
  mkAuthProvider (PrimaryInstance p) (Context_ p) (TrustedTokens p)
    (AccessList p) (AuthURLPath p) (ValidateMethodPath p) v
    (ValidateAccessListPathClaim p) (TokenValidatorOptions p)
    (PassClaimsWithHeaders p) (ForbiddenURL p).

Definition set_ValidateAccessListPathClaim (v : bool) (p : AuthProvider C)
  : AuthProvider C :=
  mkAuthProvider (PrimaryInstance p) (Context_ p) (TrustedTokens p)
    (AccessList p) (AuthURLPath p) (ValidateMethodPath p)
    (AuthRedirectQueryDisabled p) v (TokenValidatorOptions p)
    (PassClaimsWithHeaders p) (ForbiddenURL p).

Definition set_TokenValidatorOptions (v : option Config.TokenValidatorOptions)
    (p : AuthProvider C) : AuthProvider C :=
  mkAuthProvider (PrimaryInstance p) (Context_ p) (TrustedTokens p)
    (AccessList p) (AuthURLPath p) (ValidateMethodPath p)
    (AuthRedirectQueryDisabled p) (ValidateAccessListPathClaim p) v
    (PassClaimsWithHeaders p) (ForbiddenURL p).

Definition set_PassClaimsWithHeaders (v : bool) (p : AuthProvider C)
  : AuthProvider C :=
  mkAuthProvider (PrimaryInstance p) (Context_ p) (TrustedTokens p)
    (AccessList p) (AuthURLPath p) (ValidateMethodPath p)
    (AuthRedirectQueryDisabled p) (ValidateAccessListPathClaim p)
    (TokenValidatorOptions p) v (ForbiddenURL p).

Definition set_ForbiddenURL (v : string) (p : AuthProvider C) : AuthProvider C :=
  mkAuthProvider (PrimaryInstance p) (Context_ p) (TrustedTokens p)
    (AccessList p) (AuthURLPath p) (ValidateMethodPath p)
    (AuthRedirectQueryDisabled p) (ValidateAccessListPathClaim p)
    (TokenValidatorOptions p) (PassClaimsWithHeaders p) v.

End Setters.

(** *** Helpers of the parser *)

Definition isEnabledArg (s : string) : bool :=
  if ((s =? "yes") || (s =? "true") || (s =? "on"))%string then true
  else false.

Definition isSwitchArg (s : string) : bool :=
  if ((s =? "yes") || (s =? "true") || (s =? "on"))%string then true
  else if ((s =? "no") || (s =? "false") || (s =? "off"))%string then true
  else false.

(** [strings.Join(elems, sep)]. *)
Fixpoint strings_Join (elems : list string) (sep : string) : string :=
  match elems with
  | [] => ""
  | [e] => e
  | e :: rest => e ++ sep ++ strings_Join rest sep
  end.

(** *** The parser *)

(** A loop over the dispenser is run on fuel: [None] is a run the fuel did not
    cover; [Some] holds what the code returns. *)
Definition fueled (E A : Type) : Type := option (outcome E A).

Definition ret {E A : Type} (a : A) : fueled E A := Some (Return a).
Definition fail {E A : Type} (e : E) : fueled E A := Some (Fail e).

#[export] Instance fueled_bind {E : Type} : MBind (fueled E) :=
  fun A B f x =>
    match x with
    | Some (Return a) => f a
    | Some (Fail e) => Some (Fail e)
    | Some Panic => Some Panic
    | None => None
    end.

(** The parser's local state across directives: the provider [p] and the
    flag [defaultDenyACL]. *)
Record state (C : Type) : Type := mkState {
  p : AuthProvider C;
  defaultDenyACL : bool
}.

Arguments mkState {C}.
Arguments p {C}.
Arguments defaultDenyACL {C}.

Section Parser.
Context {H C : Type} `{!Helper H} `{!TokenConfigJSON C} `{!AccessListMethods}.

Abbreviation Error := (config_error H).

(** The loop [for i, arg := range args] of an [allow] or [deny] directive,
    from index [i] on, over the rule [entry], the variable [mode] and the
    provider; it ends with the three as the loop leaves them. *)
Fixpoint acl_args (rootDirective : string) (i : nat) (args : list string)
    (entry : AccessListEntry) (mode : string) (p : AuthProvider C)
  : outcome Error (AccessListEntry * string * AuthProvider C) :=
  match args with
  | [] => Return (entry, mode, p)
  | arg :: args =>
      if (i =? 0)%nat then
        match SetClaim arg entry with
        | inl err =>
            Fail (Errorf "%s argument claim key %s error: %s"
                    [S_ rootDirective; S_ arg; E_ err])
        | inr entry => acl_args rootDirective (S i) args entry mode p
        end
      else if (arg =? "with")%string then
        acl_args rootDirective (S i) args entry "method" p
      else if (arg =? "to")%string then
        acl_args rootDirective (S i) args entry "path" p
      else if (mode =? "roles")%string then
        match AddValue arg entry with
        | inl err =>
            Fail (Errorf "%s argument claim value %s error: %s"
                    [S_ rootDirective; S_ arg; E_ err])
        | inr entry => acl_args rootDirective (S i) args entry mode p
        end
      else if (mode =? "method")%string then
        match AddMethod arg entry with
        | inl err =>
            Fail (Errorf "%s argument http method %s error: %s"
                    [S_ rootDirective; S_ arg; E_ err])
        | inr entry =>
            acl_args rootDirective (S i) args entry mode
              (set_ValidateMethodPath true p)
        end
      else if (mode =? "path")%string then
        if negb (Path entry =? "")%string then
          Fail (Errorf "%s argument http path %s is already set"
                  [S_ rootDirective; S_ arg])
        else
          match SetPath arg entry with
          | inl err =>
              Fail (Errorf "%s argument http path %s error: %s"
                      [S_ rootDirective; S_ arg; E_ err])
          | inr entry =>
              acl_args rootDirective (S i) args entry mode
                (set_ValidateMethodPath true p)
          end
      else acl_args rootDirective (S i) args entry mode p
  end.

(** The case ["allow", "deny"] of the switch, on the arguments
    [h.RemainingArgs()] returned. *)
Definition acl_directive (rootDirective : string) (args : list string)
    (p : AuthProvider C) : outcome Error (AuthProvider C) :=
  if (length args =? 0)%nat then
    Fail (Errorf "%s argument has no value" [S_ rootDirective])
  else if (length args =? 1)%nat then
    Fail (Errorf "%s argument has insufficient values" [S_ rootDirective])
  else
    let entry := NewAccessListEntry in
    let entry := if (rootDirective =? "allow")%string then Allow entry
                 else Deny entry in
    let mode := "roles" in
    '(entry, _, p) ← acl_args rootDirective 0 args entry mode p;
    Return (set_AccessList (AccessList p ++ [entry]) p).

(** The innermost loop of [trusted_tokens]: the properties of one backend. *)
Fixpoint tokenConfigProps_loop (fuel : nat) (subDirective : string)
    (subNesting : Z) (tokenConfigProps : gmap string Value) (h : H)
  : fueled Error (gmap string Value * H) :=
  match fuel with
  | O => None
  | S fuel =>
      let '(more, h) := NextBlock subNesting h in
      if more then
        let backendArg := Val h in
        let body :=
          let '(ok, h) := NextArg h in
          if negb ok then
            fail (Errf h "auth backend %s subdirective %s has no value"
                    [S_ subDirective; S_ backendArg])
          else
            tokenConfigProps_loop fuel subDirective subNesting
              (<[backendArg := VString (Val h)]> tokenConfigProps) h in
        if (backendArg =? "token_rsa_file")%string then body else body
      else ret (tokenConfigProps, h)
  end.

(** The loop of [trusted_tokens] over the backends. *)
Fixpoint trusted_tokens_loop (fuel : nat) (nesting : Z) (p : AuthProvider C)
    (h : H) : fueled Error (AuthProvider C * H) :=
  match fuel with
  | O => None
  | S fuel =>
      let '(more, h) := NextBlock nesting h in
      if more then
        let subDirective := Val h in
        '(tokenConfigProps, h) ←
          tokenConfigProps_loop fuel subDirective (Nesting h) ∅ h;
        match json_Marshal tokenConfigProps with
        | inl err =>
            fail (Errf h "auth backend %s subdirective failed to compile to JSON: %s"
                    [S_ subDirective; M_ err])
        | inr tokenConfigJSON =>
            match json_Unmarshal tokenConfigJSON with
            | inl err =>
                fail (Errf h "auth backend %s subdirective failed to compile to JSON: %s"
                        [S_ subDirective; M_ err])
            | inr tokenConfig =>
                trusted_tokens_loop fuel nesting
                  (set_TrustedTokens (TrustedTokens p ++ [tokenConfig]) p) h
            end
        end
      else ret (p, h)
  end.

(** The body of the loop over root directives: the switch on
    [rootDirective], with the dispenser just past the directive's name. *)
Definition root_directive (fuel : nat) (rootDirective : string)
    (st : state C) (h : H) : fueled Error (state C * H) :=
  let p := p st in
  let defaultDenyACL := defaultDenyACL st in
  if (rootDirective =? "primary")%string then
    let '(args, h) := RemainingArgs h in
    match args with
    | [] => fail (Errorf "%s argument has no value" [S_ rootDirective])
    | arg0 :: _ =>
        if negb (isSwitchArg arg0) then
          fail (Errorf "%s argument value of %s is unsupported"
                  [S_ rootDirective; S_ arg0])
        else if isEnabledArg arg0 then
          ret (mkState (set_PrimaryInstance true p) defaultDenyACL, h)
        else ret (mkState p defaultDenyACL, h)
    end
  else if (rootDirective =? "context")%string then
    let '(args, h) := RemainingArgs h in
    match args with
    | [] => fail (Errorf "%s argument has no value" [S_ rootDirective])
    | [arg0] => ret (mkState (set_Context arg0 p) defaultDenyACL, h)
    | arg0 :: _ =>
        fail (Errorf "%s argument value of %s is unsupported"
                [S_ rootDirective; S_ arg0])
    end
  else if (rootDirective =? "auth_url")%string then
    let '(args, h) := RemainingArgs h in
    match args with
    | [] => fail (Errorf "%s argument has no value" [S_ rootDirective])
    | [arg0] => ret (mkState (set_AuthURLPath arg0 p) defaultDenyACL, h)
    | arg0 :: _ =>
        fail (Errorf "%s argument value of %s is unsupported"
                [S_ rootDirective; S_ arg0])
    end
  else if (rootDirective =? "trusted_tokens")%string then
    '(p, h) ← trusted_tokens_loop fuel (Nesting h) p h;
    ret (mkState p defaultDenyACL, h)
  else if ((rootDirective =? "allow") || (rootDirective =? "deny"))%string then
    let '(args, h) := RemainingArgs h in
    match acl_directive rootDirective args p with
    | Return p => ret (mkState p defaultDenyACL, h)
    | Fail e => fail e
    | Panic => Some Panic
    end
  else if (rootDirective =? "disable")%string then
    let '(args, h) := RemainingArgs h in
    match args with
    | [] => fail (Errorf "%s argument has no value" [S_ rootDirective])
    | arg0 :: _ =>
        if (arg0 =? "auth_redirect_query")%string then
          ret (mkState (set_AuthRedirectQueryDisabled true p) defaultDenyACL, h)
        else
          fail (Errorf "%s argument %s is unsupported"
                  [S_ rootDirective; S_ arg0])
    end
  else if (rootDirective =? "validate")%string then
    let '(args, h) := RemainingArgs h in
    match args with
    | [] => fail (Errorf "%s argument has no value" [S_ rootDirective])
    | arg0 :: _ =>
        if (arg0 =? "path_acl")%string then
          ret (mkState
                 (set_ValidateMethodPath true
                    (set_ValidateAccessListPathClaim true p))
                 defaultDenyACL, h)
        else
          fail (Errorf "%s argument %s is unsupported"
                  [S_ rootDirective; S_ arg0])
    end
  else if (rootDirective =? "option")%string then
    let '(args, h) := RemainingArgs h in
    match args with
    | [] => fail (Errorf "%s argument has no value" [S_ rootDirective])
    | arg0 :: _ =>
        let p :=
          match TokenValidatorOptions p with
          | None => set_TokenValidatorOptions (Some Config.new_options) p
          | Some _ => p
          end in
        if (arg0 =? "validate_bearer_header")%string then
          ret (mkState
                 (set_TokenValidatorOptions
                    (Config.set_ValidateBearerHeader true
                       <$> TokenValidatorOptions p) p)
                 defaultDenyACL, h)
        else
          fail (Errorf "%s argument %s is unsupported"
                  [S_ rootDirective; S_ arg0])
    end
  else if (rootDirective =? "enable")%string then
    let '(args, h) := RemainingArgs h in
    let args := strings_Join args " " in
    if (args =? "claim headers")%string then
      ret (mkState (set_PassClaimsWithHeaders true p) defaultDenyACL, h)
    else
      fail (Errf h "unsupported directive for %s: %s"
              [S_ rootDirective; S_ args])
  else if (rootDirective =? "default")%string then
    let '(ok, h) := NextArg h in
    if negb ok then
      fail (Errf h "%s argument has no value" [S_ rootDirective])
    else if (Val h =? "allow")%string then ret (mkState p false, h)
    else ret (mkState p defaultDenyACL, h)
  else if (rootDirective =? "forbidden")%string then
    let '(ok, h) := NextArg h in
    if negb ok then
      fail (Errf h "%s argument has no value" [S_ rootDirective])
    else ret (mkState (set_ForbiddenURL (Val h) p) defaultDenyACL, h)
  else
    fail (Errf h "unsupported root directive: %s" [S_ rootDirective]).

(** The inner loop [for nesting := h.Nesting(); h.NextBlock(nesting);].  The
    third component of the result is a ghost trace, which the code does not
    compute: the root directives the switch dispatched, in order, each with
    the dispenser as the switch found it. *)
Fixpoint root_block (fuel : nat) (nesting : Z) (st : state C) (h : H)
  : fueled Error (state C * H * list (string * H)) :=
  match fuel with
  | O => None
  | S fuel =>
      let '(more, h) := NextBlock nesting h in
      if more then
        let rootDirective := Val h in
        '(st, h') ← root_directive fuel rootDirective st h;
        '(st, h', trace) ← root_block fuel nesting st h';
        ret (st, h', (rootDirective, h) :: trace)
      else ret (st, h, [])
  end.

(** The outer loop [for h.Next()]. *)
Fixpoint segments (fuel : nat) (st : state C) (h : H)
  : fueled Error (state C * H * list (string * H)) :=
  match fuel with
  | O => None
  | S fuel =>
      let '(more, h) := Next h in
      if more then
        '(st, h, trace) ← root_block fuel (Nesting h) st h;
        '(st, h, trace') ← segments fuel st h;
        ret (st, h, (trace ++ trace')%list)
      else ret (st, h, [])
  end.

(** The rule a [default allow] appends. *)
Definition catch_all : AccessListEntry :=
  {| Action := "allow"; Claim := "roles"; Values := ["any"];
     Methods := []; Path := "" |}.

(** The provider the parser starts from. *)
Definition initial_provider : AuthProvider C :=
  {| PrimaryInstance := false;
     Context_ := "default";
     TrustedTokens := [];
     AccessList := [];
     AuthURLPath := "";
     ValidateMethodPath := false;
     AuthRedirectQueryDisabled := false;
     ValidateAccessListPathClaim := false;
     TokenValidatorOptions := None;
     PassClaimsWithHeaders := false;
     ForbiddenURL := "" |}.

(** What follows the loops: the check of the context and the catch-all rule. *)
Definition finish (st : state C) (h : H) : outcome Error (AuthProvider C) :=
  let p := p st in
  if (Context_ p =? "")%string then
    Fail (Errf h "context directive must not be empty" [])
  else if negb (defaultDenyACL st) then
    Return (set_AccessList (AccessList p ++ [catch_all]) p)
  else Return p.

(** [parseCaddyfileTokenValidator] sets up JWT token authorization plugin.
    The handler it returns wraps the provider [p] (as the JSON of the module
    map of a [caddyauth.Authentication]); the provider stands for it here. *)
Definition parseCaddyfileTokenValidator (fuel : nat) (h : H)
  : fueled Error (AuthProvider C) :=
  '(st, h, _) ← segments fuel (mkState initial_provider true) h;
  Some (finish st h).

End Parser.

(** *** Dispensers that end *)

(** A dispenser holds finitely many tokens: [remaining] bounds what is left,
    a successful [Next] or [NextBlock] moves past at least one token, and no
    method moves back over what the bound counted. *)
Record Finite {H : Type} `{!Helper H} (remaining : H -> nat) : Prop := mkFinite {
  Next_true : forall h h', Next h = (true, h') -> remaining h' < remaining h;
  Next_false : forall h h', Next h = (false, h') -> remaining h' <= remaining h;
  NextBlock_true :
    forall n h h', NextBlock n h = (true, h') -> remaining h' < remaining h;
  NextBlock_false :
    forall n h h', NextBlock n h = (false, h') -> remaining h' <= remaining h;
  NextArg_le : forall h b h', NextArg h = (b, h') -> remaining h' <= remaining h;
  RemainingArgs_le :
    forall h args h', RemainingArgs h = (args, h') -> remaining h' <= remaining h
}.

(** *** Vocabulary of the properties *)

Section Vocabulary.
Context {H C : Type} `{!Helper H} `{!TokenConfigJSON C} `{!AccessListMethods}.

(** A dispatched directive is a [default allow]: the directive is [default]
    and the next argument, on its line, is [allow]. *)
Definition is_default_allow (d : string * H) : bool :=
  (fst d =? "default")%string &&
  (let '(ok, h) := NextArg (snd d) in ok && (Val h =? "allow")%string).

Definition default_allow_given (trace : list (string * H)) : bool :=
  existsb is_default_allow trace.

(** A dispatched directive is an [allow] or a [deny]. *)
Definition is_acl (d : string * H) : bool :=
  ((fst d =? "allow") || (fst d =? "deny"))%string.

(** [entries] are the rules of the directives of [trace]: one for each
    [allow] or [deny]. *)
Definition rules_of (trace : list (string * H))
    (entries : list AccessListEntry) : Prop :=
  length entries = length (List.filter is_acl trace).

(** The error of a second path in a rule. *)
Definition already_set (rootDirective arg : string) : config_error H :=
  Errorf "%s argument http path %s is already set" [S_ rootDirective; S_ arg].

(** The rule an [allow] or [deny] directive starts from. *)
Definition new_entry (rootDirective : string) : AccessListEntry :=
  if (rootDirective =? "allow")%string then Allow NewAccessListEntry
  else Deny NewAccessListEntry.

(** The loop over a block, started with [fuel] at state [st] and dispenser
    [h], comes to the switch with state [st'], the dispenser [h'] on the name
    of a directive and [fuel'] left: every directive before returned. *)
Inductive block_reaches
  : nat -> Z -> state C -> H -> state C -> H -> nat -> Prop :=
| block_reaches_first fuel nesting st h h1 :
    NextBlock nesting h = (true, h1) ->
    block_reaches (S fuel) nesting st h st h1 fuel
| block_reaches_next fuel nesting st h h1 st1 h2 st' h' fuel' :
    NextBlock nesting h = (true, h1) ->
    root_directive fuel (Val h1) st h1 = Some (Return (st1, h2)) ->
    block_reaches fuel nesting st1 h2 st' h' fuel' ->
    block_reaches (S fuel) nesting st h st' h' fuel'.

(** The same for the outer loop: every block before returned. *)
Inductive reaches : nat -> state C -> H -> state C -> H -> nat -> Prop :=
| reaches_block fuel st h h1 st' h' fuel' :
    Next h = (true, h1) ->
    block_reaches fuel (Nesting h1) st h1 st' h' fuel' ->
    reaches (S fuel) st h st' h' fuel'
| reaches_next fuel st h h1 st1 h2 trace st' h' fuel' :
    Next h = (true, h1) ->
    root_block fuel (Nesting h1) st h1 = Some (Return (st1, h2, trace)) ->
    reaches fuel st1 h2 st' h' fuel' ->
    reaches (S fuel) st h st' h' fuel'.

(** A run ends, the fuel covering it, and when it returns it leaves a
    dispenser with no more than [bound] remaining. *)
Definition ends_within {A : Type} (remaining : H -> nat) (after : A -> H)
    (bound : nat) (x : fueled (config_error H) A) : Prop :=
  exists r, x = Some r /\
            forall a, r = Return a -> remaining (after a) <= bound.

(** What the switch returns, without the dispenser. *)
Definition state_after (x : fueled (config_error H) (state C * H))
  : fueled (config_error H) (state C) :=
  '(st, _) ← x; ret st.

(** The arguments of an [allow] or [deny] that the loop hands to [SetPath]
    when it accepts them all: those past the claim that are no keyword and
    come in mode "path". *)
Fixpoint path_arguments (i : nat) (mode : string) (args : list string)
  : list string :=
  match args with
  | [] => []
  | arg :: args =>
      if (i =? 0)%nat then path_arguments (S i) mode args
      else if (arg =? "with")%string then path_arguments (S i) "method" args
      else if (arg =? "to")%string then path_arguments (S i) "path" args
      else if (mode =? "roles")%string then path_arguments (S i) mode args
      else if (mode =? "method")%string then path_arguments (S i) mode args
      else if (mode =? "path")%string then
        arg :: path_arguments (S i) mode args
      else path_arguments (S i) mode args
  end.

(** The lines the loop over a backend block reads, in order: the name of a
    property with its argument.  The loop stops at the end of the block, or
    at a name without an argument. *)
Fixpoint backend_lines (fuel : nat) (subNesting : Z) (h : H)
  : list (string * string) :=
  match fuel with
  | O => []
  | S fuel =>
      let '(more, h1) := NextBlock subNesting h in
      if more then
        let '(ok, h2) := NextArg h1 in
        if ok then (Val h1, Val h2) :: backend_lines fuel subNesting h2
        else []
      else []
  end.

(** The argument of the last of the lines that names the property. *)
Definition last_argument (name : string) (lines : list (string * string))
  : option string :=
  last (snd <$> filter (fun line => fst line = name) lines).

(** A value of the properties of a backend that is a string. *)
Definition is_string (v : Value) : Prop := exists s, v = VString s.

(** The root directives the switch knows. *)
Definition directives : list string :=
  ["primary"; "context"; "auth_url"; "trusted_tokens"; "allow"; "deny";
   "disable"; "validate"; "option"; "enable"; "default"; "forbidden"].

(** The directive [d], found by the switch with the dispenser [snd d], took
    the state [st] to [st']: the switch returned. *)
Definition dispatched (d : string * H) (st st' : state C) : Prop :=
  exists fuel h',
    root_directive fuel (fst d) st (snd d) = Some (Return (st', h')).

(** The directives of [trace], one after the other, took [st] to [st']. *)
Fixpoint chain (trace : list (string * H)) (st st' : state C) : Prop :=
  match trace with
  | [] => st' = st
  | d :: trace => exists st1, dispatched d st st1 /\ chain trace st1 st'
  end.

(** The arguments of a dispatched directive, as [RemainingArgs] gives them,
    and its next argument, as [NextArg] and [Val] give it. *)
Definition args_of (d : string * H) : list string :=
  fst (RemainingArgs (snd d)).

Definition arg_of (d : string * H) : string := Val (snd (NextArg (snd d))).

Definition is_directive (name : string) (d : string * H) : bool :=
  (fst d =? name)%string.

(** A [primary] whose first argument is [yes], [true] or [on]. *)
Definition turns_on_primary (d : string * H) : bool :=
  is_directive "primary" d &&
  match args_of d with
  | arg0 :: _ => isEnabledArg arg0
  | [] => false
  end.

(** The string a [context], an [auth_url] or a [forbidden] sets. *)
Definition context_of (d : string * H) : option string :=
  if is_directive "context" d then head (args_of d) else None.

Definition auth_url_of (d : string * H) : option string :=
  if is_directive "auth_url" d then head (args_of d) else None.

Definition forbidden_of (d : string * H) : option string :=
  if is_directive "forbidden" d then Some (arg_of d) else None.

(** The last string the directives of [trace] set, [start] when none does. *)
Definition last_set (get : string * H -> option string) (start : string)
    (trace : list (string * H)) : string :=
  default start (last (omap get trace)).

(** Some argument of the list that is not a keyword comes after a keyword
    [with] or [to]; [seen] tells that a keyword came before the list. *)
Definition keyword (arg : string) : bool :=
  ((arg =? "with") || (arg =? "to"))%string.

Fixpoint after_keyword (seen : bool) (args : list string) : bool :=
  match args with
  | [] => false
  | arg :: args =>
      if keyword arg then after_keyword true args
      else seen || after_keyword seen args
  end.

(** An [allow] or a [deny] that names a method or a path: an argument past
    the claim follows a keyword. *)
Definition scoped (d : string * H) : bool :=
  is_acl d && after_keyword false (tail (args_of d)).

(** The rule the loop over the arguments of a dispatched [allow] or [deny]
    leaves. *)
Definition rule_of (d : string * H) : option AccessListEntry :=
  match acl_args (H:=H) (C:=C) (fst d) 0 (args_of d) (new_entry (fst d)) "roles"
          initial_provider with
  | Return (entry, _, _) => Some entry
  | _ => None
  end.

End Vocabulary.

End Caddyfile.

(** ** The access rule operations, from the spec *)

Module AccessListSpec.
Import Caddyfile.

(** Modelled from the spec: [NewAccessListEntry], the rule with no field set. *)
Definition NewAccessListEntry : AccessListEntry :=
  {| Action := ""; Claim := ""; Values := []; Methods := []; Path := "" |}.

(** Modelled from the spec: [Allow] sets the action to allow. *)
Definition Allow (acl : AccessListEntry) : AccessListEntry :=
  {| Action := "allow"; Claim := Claim acl; Values := Values acl;
     Methods := Methods acl; Path := Path acl |}.

(** Modelled from the spec: [Deny] sets the action to deny. *)
Definition Deny (acl : AccessListEntry) : AccessListEntry :=
  {| Action := "deny"; Claim := Claim acl; Values := Values acl;
     Methods := Methods acl; Path := Path acl |}.

(** Modelled from the spec: [SetClaim] sets the claim name; an empty claim is
    a misconfiguration. *)
Definition SetClaim (s : string) (acl : AccessListEntry)
  : ACLMisconfigured + AccessListEntry :=
  if (s =? "")%string then inl EmptyClaim
  else inr {| Action := Action acl; Claim := s; Values := Values acl;
              Methods := Methods acl; Path := Path acl |}.

(** Modelled from the spec: [AddValue] adds a value to the rule's values. *)
Definition AddValue (s : string) (acl : AccessListEntry)
  : ACLMisconfigured + AccessListEntry :=
  inr {| Action := Action acl; Claim := Claim acl; Values := Values acl ++ [s];
         Methods := Methods acl; Path := Path acl |}.

(** Modelled from the spec: [AddMethod] adds an HTTP method to the rule's
    methods. *)
Definition AddMethod (s : string) (acl : AccessListEntry)
  : ACLMisconfigured + AccessListEntry :=
  inr {| Action := Action acl; Claim := Claim acl; Values := Values acl;
         Methods := Methods acl ++ [s]; Path := Path acl |}.

(** Modelled from the spec: [SetPath] sets the rule's path pattern. *)
Definition SetPath (s : string) (acl : AccessListEntry)
  : ACLMisconfigured + AccessListEntry :=
  inr {| Action := Action acl; Claim := Claim acl; Values := Values acl;
         Methods := Methods acl; Path := s |}.

(** Modelled from the spec: the methods of [AccessListEntry] together. *)
#[export] Instance methods : AccessListMethods :=
  mkAccessListMethods NewAccessListEntry Allow Deny SetClaim AddValue
    AddMethod SetPath.

End AccessListSpec.

(** ** A dispenser over a list of tokens

    An implementation of [Caddyfile.Helper] in the manner of Caddy's
    [caddyfile.Dispenser], on which the parser runs on concrete
    configurations.  The properties of the parser below are proved for every
    dispenser; this one shows them at work. *)

Module TokenList.

Record Token : Type := mkToken {
  Text : string;
  Line : nat
}.

(** [passed] counts the tokens the cursor has moved onto: the cursor of the
    Go dispenser plus one, 0 before the first token. *)
Record Dispenser : Type := mkDispenser {
  tokens : list Token;
  passed : nat;
  nesting : Z
}.

Definition current (d : Dispenser) : option Token :=
  match passed d with
  | O => None
  | S c => tokens d !! c
  end.

Definition Val (d : Dispenser) : string :=
  match current d with
  | Some t => Text t
  | None => ""
  end.

Definition move (n : nat) (d : Dispenser) : Dispenser :=
  {| tokens := tokens d; passed := n; nesting := nesting d |}.

Definition nest (z : Z) (d : Dispenser) : Dispenser :=
  {| tokens := tokens d; passed := passed d; nesting := z |}.

Definition Next (d : Dispenser) : bool * Dispenser :=
  if (passed d <? length (tokens d))%nat then (true, move (S (passed d)) d)
  else (false, d).

(** Moves onto the next token when it stands on the line of the current one
    (or when the cursor is before the first token). *)
Definition nextOnSameLine (d : Dispenser) : bool * Dispenser :=
  match current d, tokens d !! passed d with
  | None, Some _ =>
      if (passed d =? 0)%nat then (true, move (S (passed d)) d) else (false, d)
  | Some t, Some t' =>
      if (Line t =? Line t')%nat then (true, move (S (passed d)) d)
      else (false, d)
  | _, None => (false, d)
  end.

Definition NextArg (d : Dispenser) : bool * Dispenser :=
  let '(ok, d') := nextOnSameLine d in
  if negb ok then (false, d')
  else if (Val d' =? "{")%string then (false, d)
  else (true, d').

Definition NextBlock (initialNestingLevel : Z) (d : Dispenser)
  : bool * Dispenser :=
  if (initialNestingLevel <? nesting d)%Z then
    let '(ok, d) := Next d in
    if negb ok then (false, d)
    else
      let d :=
        if (Val d =? "}")%string then
          let '(same, d') := nextOnSameLine d in
          if negb same then nest (nesting d' - 1) d' else d'
        else if (Val d =? "{")%string then
          let '(same, d') := nextOnSameLine d in
          if negb same then nest (nesting d' + 1) d' else d'
        else d in
      ((initialNestingLevel <? nesting d)%Z, d)
  else
    let '(ok, d') := nextOnSameLine d in
    if negb ok then (false, d')
    else if negb (Val d' =? "{")%string then (false, d)
    else
      let '(_, d') := Next d' in
      if (Val d' =? "}")%string then (false, d')
      else (true, nest (nesting d' + 1) d').

Definition Nesting (d : Dispenser) : Z := nesting d.

(** The loop [for d.NextArg()] of [RemainingArgs], on fuel. *)
Fixpoint RemainingArgs_loop (fuel : nat) (d : Dispenser)
  : list string * Dispenser :=
  match fuel with
  | O => ([], d)
  | S fuel =>
      let '(ok, d') := NextArg d in
      if ok then
        let '(args, d'') := RemainingArgs_loop fuel d' in
        (Val d' :: args, d'')
      else ([], d')
  end.

Definition RemainingArgs (d : Dispenser) : list string * Dispenser :=
  RemainingArgs_loop (length (tokens d)) d.

#[export] Instance Dispenser_Helper : Caddyfile.Helper Dispenser :=
  {| Caddyfile.Next := Next;
     Caddyfile.NextArg := NextArg;
     Caddyfile.NextBlock := NextBlock;
     Caddyfile.Nesting := Nesting;
     Caddyfile.Val := Val;
     Caddyfile.RemainingArgs := RemainingArgs |}.

(** The trusted-token blocks are not decoded here: every block yields the
    one value of [unit]. *)
#[export] Instance unit_TokenConfigJSON : Caddyfile.TokenConfigJSON unit :=
  {| Caddyfile.json_Marshal := fun _ => inr [];
     Caddyfile.json_Unmarshal := fun _ => inr tt |}.

Definition remaining (d : Dispenser) : nat := length (tokens d) - passed d.

(** The tokens of the given lines, line numbers from 1, before the cursor
    moved. *)
Fixpoint lines_from (n : nat) (lines : list (list string)) : list Token :=
  match lines with
  | [] => []
  | l :: lines => (map (fun s => mkToken s n) l ++ lines_from (S n) lines)%list
  end.

Definition dispenser (lines : list (list string)) : Dispenser :=
  {| tokens := lines_from 1 lines; passed := 0; nesting := 0 |}.

End TokenList.

(** ** A key-set source with a fixed document

    An implementation of [Backends.Externals] that serves one decoded
    document, whatever the address: the top-level object [data] and the key
    list its [keys] field decodes to.  A key carries the error its validation
    returns, if any. *)

Module FixedKeySet.

Record Key : Type := mkKey {
  kid : string;
  n : string;
  e : string;
  invalid : option string;
  publicKey : rsa_PublicKey
}.

(** The JSON object of a key, and the document of a key list. *)
Definition key_object (k : Key) : Value :=
  VMap [("kid", VString (kid k)); ("kty", VString "RSA");
        ("n", VString (n k)); ("e", VString (e k))].

Definition key_set (keys : list Key) : gmap string Value :=
  <["keys" := VSlice (map key_object keys)]> ∅.

Definition serve (data : gmap string Value) (keys : list Key)
  : Backends.Externals :=
  {| Backends.Response := unit;
     Backends.JwksKey := Key;
     Backends.http_Get := fun _ => inr tt;
     Backends.ioutil_ReadAll := fun _ => inr [];
     Backends.json_Unmarshal_map := fun _ => inr data;
     Backends.json_Marshal := fun _ => inr [];
     Backends.json_Unmarshal_keys := fun _ => inr keys;
     Backends.KeyID := kid;
     Backends.Validate := fun k => (k, invalid k);
     Backends.GetPublicKey := fun k => VRSAPublicKey (Some (publicKey k)) |}.

End FixedKeySet.

(** ** Sample keys and tokens *)

Module Samples.
Import Backends.

Definition pub1 : rsa_PublicKey := {| N := 3233; E := 17 |}.
Definition priv2 : rsa_PrivateKey :=
  {| PublicKey := {| N := 8633; E := 5 |}; D := 5069; Primes := [89; 97]%Z |}.

(** A store with a public key under "k1", a private key under "k2" and a
    public key under the default identifier. *)
Definition store : RSAKeyTokenBackend :=
  NewRSAKeyTokenBackend
    (<["k1" := VRSAPublicKey (Some pub1)]>
       (<["k2" := VRSAPrivateKey (Some priv2)]>
          (<["0" := VRSAPublicKey (Some pub1)]> ∅))).

Definition header (alg : string) (kid : option string) : gmap string Value :=
  match kid with
  | Some kid => <["kid" := VString kid]> (<["alg" := VString alg]> ∅)
  | None => <["alg" := VString alg]> ∅
  end.

Definition rs256 (kid : option string) : Token :=
  {| Method := SigningMethodRSA "RS256"; Header := header "RS256" kid |}.

Definition hs256 (kid : option string) : Token :=
  {| Method := SigningMethodHMAC "HS256"; Header := header "HS256" kid |}.

(** A token with an RSA method whose header carries the number 7 as [kid]
    (the float64 that [encoding/json] decodes it to, by its bits). *)
Definition numeric_kid : Token :=
  {| Method := SigningMethodRSA "RS256";
     Header := <["kid" := VFloat64 4619567317775286272]>
                 (<["alg" := VString "RS256"]> ∅) |}.

(** An options struct at address 1 whose metadata is the map at address 1. *)
Definition options0 : Config.TokenValidatorOptions :=
  {| Config.ValidateSourceAddress := false;
     Config.SourceAddress := "10.0.0.1";
     Config.ValidateBearerHeader := true;
     Config.ValidateMethodPath := true;
     Config.ValidateAccessListPathClaim := false;
     Config.ValidateAllowMatchAll := false;
     Config.Metadata := Some 1%positive;
     Config.Replacer := None;
     Config.Logger := Some 7%positive |}.

(** [jwt { allow roles with get }], closing brace on its own line. *)
Definition allow_without_values : TokenList.Dispenser :=
  TokenList.dispenser [["jwt"; "{"]; ["allow"; "roles"; "with"; "get"]; ["}"]].

(** [jwt { allow roles admin / default allow }]. *)
Definition allow_then_default_allow : TokenList.Dispenser :=
  TokenList.dispenser
    [["jwt"; "{"]; ["allow"; "roles"; "admin"]; ["default"; "allow"]; ["}"]].

(** [jwt { allow roles admin to /x /y }]. *)
Definition two_paths : TokenList.Dispenser :=
  TokenList.dispenser
    [["jwt"; "{"]; ["allow"; "roles"; "admin"; "to"; "/x"; "/y"]; ["}"]].

(** The dispenser of [two_paths] on the name of the directive. *)
Definition on_two_paths : TokenList.Dispenser :=
  {| TokenList.tokens := TokenList.tokens two_paths;
     TokenList.passed := 3;
     TokenList.nesting := 1 |}.

(** Two valid keys (modulus 3233, exponent 17, in base64url) and one whose
    validation fails. *)
Definition good1 : FixedKeySet.Key := FixedKeySet.mkKey "a" "DKE" "EQ" None pub1.
Definition good2 : FixedKeySet.Key := FixedKeySet.mkKey "b" "DKE" "EQ" None pub1.
Definition bad : FixedKeySet.Key :=
  FixedKeySet.mkKey "c" "" "EQ" (Some "jwks key modulus is empty") pub1.
Definition three_keys : list FixedKeySet.Key := [good1; good2; bad].

(** A key set in which the identifier "a" comes twice, with two moduli. *)
Definition pub3 : rsa_PublicKey := {| N := 8633; E := 5 |}.
Definition good3 : FixedKeySet.Key := FixedKeySet.mkKey "a" "Ibk" "BQ" None pub3.
Definition rotated : list FixedKeySet.Key := [good1; good2; good3].

(** The key set [rotated], served at any address. *)
Definition rotating : Externals :=
  FixedKeySet.serve (FixedKeySet.key_set rotated) rotated.

(** A configuration with every directive but [trusted_tokens], [primary]
    and [context] twice, and the provider the parser returns on it. *)
Definition every_directive : TokenList.Dispenser :=
  TokenList.dispenser
    [["jwt"; "{"]; ["primary"; "yes"]; ["primary"; "no"]; ["context"; "a"];
     ["context"; "b"]; ["auth_url"; "/auth"];
     ["allow"; "roles"; "admin"; "with"; "get"]; ["deny"; "roles"; "guest"];
     ["disable"; "auth_redirect_query"]; ["validate"; "path_acl"];
     ["option"; "validate_bearer_header"]; ["enable"; "claim"; "headers"];
     ["forbidden"; "/403"]; ["default"; "allow"]; ["}"]].

Definition every_directive_provider : Caddyfile.AuthProvider unit :=
  {| Caddyfile.PrimaryInstance := true;
     Caddyfile.Context_ := "b";
     Caddyfile.TrustedTokens := [];
     Caddyfile.AccessList :=
       [ {| Caddyfile.Action := "allow"; Caddyfile.Claim := "roles";
            Caddyfile.Values := ["admin"]; Caddyfile.Methods := ["get"];
            Caddyfile.Path := "" |};
         {| Caddyfile.Action := "deny"; Caddyfile.Claim := "roles";
            Caddyfile.Values := ["guest"]; Caddyfile.Methods := [];
            Caddyfile.Path := "" |};
         {| Caddyfile.Action := "allow"; Caddyfile.Claim := "roles";
            Caddyfile.Values := ["any"]; Caddyfile.Methods := [];
            Caddyfile.Path := "" |} ];
     Caddyfile.AuthURLPath := "/auth";
     Caddyfile.ValidateMethodPath := true;
     Caddyfile.AuthRedirectQueryDisabled := true;
     Caddyfile.ValidateAccessListPathClaim := true;
     Caddyfile.TokenValidatorOptions :=
       Some (Config.set_ValidateBearerHeader true Config.new_options);
     Caddyfile.PassClaimsWithHeaders := true;
     Caddyfile.ForbiddenURL := "/403" |}.

(** A dispenser on its token [passed], in a block at depth [nesting]. *)
Definition placed (passed : nat) (nesting : Z) (d : TokenList.Dispenser)
  : TokenList.Dispenser :=
  TokenList.nest nesting (TokenList.move passed d).

(** One directive in a block: [jwt { line }]. *)
Definition one_directive (line : list string) : TokenList.Dispenser :=
  TokenList.dispenser [["jwt"; "{"]; line; ["}"]].

(** A [trusted_tokens] block with one backend, one property given twice. *)
Definition one_backend : TokenList.Dispenser :=
  TokenList.dispenser
    [["jwt"; "{"]; ["trusted_tokens"; "{"]; ["static_secret"; "{"];
     ["token_name"; "jwt"]; ["token_secret"; "abc"];
     ["token_name"; "access"]; ["}"]; ["}"]; ["}"]].

Definition heap0 : Config.heap :=
  {| Config.structs := {[1%positive := options0]};
     Config.maps := {[1%positive := {["user" := VString "alice"]}]} |}.

End Samples.

(** * Properties *)

(** ** Key resolvers *)

Section Resolvers.
Import Backends.

Lemma index_lookup (m : gmap string Value) (k : string) (v : Value) :
  m !! k = Some v -> index m k = v.
Proof. unfold index. intros ->. reflexivity. Qed.

Lemma index_absent (m : gmap string Value) (k : string) :
  m !! k = None -> index m k = VNil.
Proof. unfold index. intros ->. reflexivity. Qed.

Lemma switch_key_rsa (val : Value) (p : option rsa_PublicKey) :
  rsa_key_of val p -> switch_key val = Some (Return (VRSAPublicKey p)).
Proof. destruct 1; reflexivity. Qed.

Lemma switch_key_returns (val : Value) (r : result Value) :
  switch_key val = Some r ->
  r = Panic \/ exists p, rsa_key_of val p /\ r = Return (VRSAPublicKey p).
Proof.
  destruct val as [| | | | | | |p|[key|]]; simpl; intros Hs;
    try discriminate; injection Hs as <-.
  - right. exists p. split; [constructor | reflexivity].
  - right. eexists. split; [constructor | reflexivity].
  - left. reflexivity.
Qed.

(** With an RSA method, [ProvideKey] is the switch on the entry stored under
    the identifier looked up. *)
Lemma ProvideKey_RSA_lookup (b : RSAKeyTokenBackend) (token : Token) :
  assert_SigningMethodRSA (Method token) = true ->
  RSAKeyTokenBackend_ProvideKey b token =
    match secrets b !! looked_up token ≫= switch_key with
    | Some r => r
    | None =>
        Fail (match assert_string (index (Header token) "kid") with
              | Some _ => ErrUnexpectedKID
              | None => ErrNoRSAKeyFound
              end)
    end.
Proof.
  intros HRSA. unfold RSAKeyTokenBackend_ProvideKey, looked_up.
  rewrite HRSA. simpl.
  destruct (assert_string (index (Header token) "kid")) as [kid|];
    (destruct (secrets b !! _) as [val|]; simpl;
     [destruct (switch_key val); reflexivity | reflexivity]).
Qed.

(** C1.  For a token with an RSA method whose header carries the key
    identifier [kid] (a string), [ProvideKey] looks up exactly [kid]: an RSA
    key stored under it gives its public key, and when nothing is stored
    under [kid] the call fails with [ErrUnexpectedKID], whatever the store
    holds under the default identifier "0".  For a token whose header has no
    [kid] (more generally, none that is a string), [ProvideKey] looks up "0":
    an RSA key stored there gives its public key, and the call fails with
    [ErrNoRSAKeyFound] when no RSA key is stored there. *)
Theorem ProvideKey_kid_exact_default_fallback
    (b : RSAKeyTokenBackend) (token : Token) (name : string) :
  Method token = SigningMethodRSA name ->
  (forall kid, Header token !! "kid" = Some (VString kid) ->
     (forall val p, secrets b !! kid = Some val -> rsa_key_of val p ->
        RSAKeyTokenBackend_ProvideKey b token = Return (VRSAPublicKey p)) /\
     (secrets b !! kid = None ->
        forall default, secrets b !! defaultKeyID = default ->
        RSAKeyTokenBackend_ProvideKey b token = Fail ErrUnexpectedKID)) /\
  (Header token !! "kid" = None \/
   assert_string (index (Header token) "kid") = None ->
     (forall val p, secrets b !! defaultKeyID = Some val -> rsa_key_of val p ->
        RSAKeyTokenBackend_ProvideKey b token = Return (VRSAPublicKey p)) /\
     ((forall val, secrets b !! defaultKeyID = Some val -> rsa_typed val = false) ->
        RSAKeyTokenBackend_ProvideKey b token = Fail ErrNoRSAKeyFound)).
Proof.
  intros HRSA.
  assert (Hassert : assert_SigningMethodRSA (Method token) = true)
    by (rewrite HRSA; reflexivity).
  rewrite (ProvideKey_RSA_lookup b token Hassert). unfold looked_up.
  split.
  - intros kid Hkid. rewrite (index_lookup _ _ _ Hkid). simpl. split.
    + intros val p -> Hkey. simpl. rewrite (switch_key_rsa _ _ Hkey).
      reflexivity.
    + intros -> default _. reflexivity.
  - intros Hkid.
    assert (Hnone : assert_string (index (Header token) "kid") = None).
    { destruct Hkid as [Habsent | Hother]; [| exact Hother].
      rewrite (index_absent _ _ Habsent). reflexivity. }
    rewrite Hnone. split.
    + intros val p -> Hkey. simpl. rewrite (switch_key_rsa _ _ Hkey).
      reflexivity.
    + intros Hno. destruct (secrets b !! defaultKeyID) as [val|] eqn:Hval;
        [simpl | reflexivity].
      specialize (Hno val eq_refl).
      destruct val; try discriminate; reflexivity.
Qed.

(** A witness of C1: the token names "k2", the store holds a private key
    there. *)
Lemma ProvideKey_kid_exact_witness :
  RSAKeyTokenBackend_ProvideKey Samples.store (Samples.rs256 (Some "k2"))
  = Return (VRSAPublicKey (Some (PublicKey Samples.priv2))).
Proof.
  refine (proj1 (proj1 (ProvideKey_kid_exact_default_fallback
                          Samples.store (Samples.rs256 (Some "k2")) "RS256"
                          eq_refl)
                   "k2" _) _ _ _ _).
  - vm_compute. reflexivity.
  - vm_compute. reflexivity.
  - constructor.
Defined.

(** C1, where the claim as it is stated fails: the header of the token
    carries a [kid], the number 7, under which the store holds nothing (its
    identifiers are strings), and [ProvideKey] does not fail with
    [ErrUnexpectedKID]: it returns the key stored under "0".  A [kid] that
    is not a string is no [kid] to the type assertion. *)
Lemma ProvideKey_kid_not_string_falls_back :
  Header Samples.numeric_kid !! "kid" = Some (VFloat64 4619567317775286272) /\
  secrets Samples.store !! "0" = Some (VRSAPublicKey (Some Samples.pub1)) /\
  RSAKeyTokenBackend_ProvideKey Samples.store Samples.numeric_kid
    = Return (VRSAPublicKey (Some Samples.pub1)) /\
  RSAKeyTokenBackend_ProvideKey Samples.store Samples.numeric_kid
    <> Fail ErrUnexpectedKID.
Proof.
  split; [reflexivity |]. split; [reflexivity |].
  assert (Hr : RSAKeyTokenBackend_ProvideKey Samples.store Samples.numeric_kid
               = Return (VRSAPublicKey (Some Samples.pub1)))
    by (vm_compute; reflexivity).
  split; [exact Hr | rewrite Hr; discriminate].
Qed.

(** A token that names a key the store does not hold is refused although the
    store holds a key under "0"; a token without [kid] gets that key. *)
Example ProvideKey_unknown_kid :
  RSAKeyTokenBackend_ProvideKey Samples.store (Samples.rs256 (Some "k9"))
    = Fail ErrUnexpectedKID /\
  RSAKeyTokenBackend_ProvideKey Samples.store (Samples.rs256 None)
    = Return (VRSAPublicKey (Some Samples.pub1)).
Proof. split; vm_compute; reflexivity. Qed.

(** C2.  A token whose method is not of the resolver's type is refused with
    [ErrUnexpectedSigningMethod], and the refusal is the same whatever the
    resolver holds: the secret-key resolver refuses every method that is not
    an HMAC method, the RSA resolver every method that is not an RSA method,
    and so an HMAC token given to the RSA resolver. *)
Theorem ProvideKey_rejects_other_family (token : Token) :
  ((forall name, Method token <> SigningMethodHMAC name) ->
     forall b : SecretKeyTokenBackend,
       SecretKeyTokenBackend_ProvideKey b token =
         Fail (ErrUnexpectedSigningMethod "HS" (index (Header token) "alg"))) /\
  ((forall name, Method token <> SigningMethodRSA name) ->
     forall b : RSAKeyTokenBackend,
       RSAKeyTokenBackend_ProvideKey b token =
         Fail (ErrUnexpectedSigningMethod "RS" (index (Header token) "alg"))) /\
  (forall name, Method token = SigningMethodHMAC name ->
     forall b : RSAKeyTokenBackend,
       RSAKeyTokenBackend_ProvideKey b token =
         Fail (ErrUnexpectedSigningMethod "RS" (index (Header token) "alg"))).
Proof.
  unfold SecretKeyTokenBackend_ProvideKey, RSAKeyTokenBackend_ProvideKey.
  repeat split.
  - intros Hm b. destruct (Method token) eqn:Hk; try reflexivity.
    exfalso. eapply Hm. reflexivity.
  - intros Hm b. destruct (Method token) eqn:Hk; try reflexivity.
    exfalso. eapply Hm. reflexivity.
  - intros name -> b. reflexivity.
Qed.

(** A witness of C2: an HS256 token given to the RSA resolver. *)
Lemma ProvideKey_rejects_other_family_witness :
  RSAKeyTokenBackend_ProvideKey Samples.store (Samples.hs256 (Some "k1"))
  = Fail (ErrUnexpectedSigningMethod "RS" (VString "HS256")).
Proof.
  exact (proj2 (proj2 (ProvideKey_rejects_other_family
                         (Samples.hs256 (Some "k1"))))
           "HS256" eq_refl Samples.store).
Defined.

(** C9.  Whenever the RSA resolver returns a value, the value is an RSA
    public key: the entry stored under the identifier looked up is an RSA
    public key, returned as it is, or an RSA private key, of which the public
    part is returned.  An entry of any other type under that identifier
    makes the call fail. *)
Theorem ProvideKey_returns_public_key
    (b : RSAKeyTokenBackend) (token : Token) (v : Value) :
  RSAKeyTokenBackend_ProvideKey b token = Return v ->
  (exists val p,
     secrets b !! looked_up token = Some val /\
     rsa_key_of val p /\ v = VRSAPublicKey p) /\
  (forall val, secrets b !! looked_up token = Some val ->
     rsa_typed val = true).
Proof.
  intros Hret.
  destruct (assert_SigningMethodRSA (Method token)) eqn:HRSA.
  2: { unfold RSAKeyTokenBackend_ProvideKey in Hret. rewrite HRSA in Hret.
       discriminate. }
  rewrite (ProvideKey_RSA_lookup b token HRSA) in Hret.
  destruct (secrets b !! looked_up token) as [val|]; [| discriminate].
  simpl in Hret.
  destruct (switch_key val) as [r|] eqn:Hs; [| discriminate]. subst r.
  destruct (switch_key_returns _ _ Hs) as [? | (p & Hkey & Hv)];
    [discriminate |].
  injection Hv as ->. split.
  - exists val, p. auto.
  - intros val' Hval'. injection Hval' as <-. destruct Hkey; reflexivity.
Qed.

(** A witness of C9: the default identifier, a public key stored there. *)
Lemma ProvideKey_returns_public_key_witness :
  exists val p,
    secrets Samples.store !! looked_up (Samples.rs256 None) = Some val /\
    rsa_key_of val p /\ VRSAPublicKey (Some Samples.pub1) = VRSAPublicKey p.
Proof.
  refine (proj1 (ProvideKey_returns_public_key Samples.store
                   (Samples.rs256 None) (VRSAPublicKey (Some Samples.pub1)) _)).
  vm_compute. reflexivity.
Defined.

(** C10.  [NewSecretKeyTokenBackend] refuses a secret shorter than 16 bytes
    with [ErrInvalidSecretLength], returning no backend, and for a secret of
    16 bytes or more returns a backend that holds the bytes of the secret. *)
Theorem NewSecretKeyTokenBackend_minimum_length (s : string) :
  (String.length s < 16 ->
     NewSecretKeyTokenBackend s = Fail ErrInvalidSecretLength /\
     returned (NewSecretKeyTokenBackend s) = None) /\
  (16 <= String.length s ->
     exists b, NewSecretKeyTokenBackend s = Return b /\
               secret b = String.list_byte_of_string s /\
               String.string_of_list_byte (secret b) = s).
Proof.
  unfold NewSecretKeyTokenBackend. split; intros Hlen.
  - apply Nat.ltb_lt in Hlen. rewrite Hlen. split; reflexivity.
  - apply Nat.ltb_ge in Hlen. rewrite Hlen. eexists. split; [reflexivity |].
    simpl. split; [reflexivity |]. apply String.string_of_list_byte_of_string.
Qed.

(** A witness of C10: a secret of 16 bytes and one of 15. *)
Lemma NewSecretKeyTokenBackend_minimum_length_witness :
  (exists b, NewSecretKeyTokenBackend "0123456789abcdef" = Return b /\
             secret b = String.list_byte_of_string "0123456789abcdef" /\
             String.string_of_list_byte (secret b) = "0123456789abcdef") /\
  NewSecretKeyTokenBackend "0123456789abcde" = Fail ErrInvalidSecretLength.
Proof.
  split.
  - apply (proj2 (NewSecretKeyTokenBackend_minimum_length "0123456789abcdef")).
    simpl. lia.
  - apply (proj1 (NewSecretKeyTokenBackend_minimum_length "0123456789abcde")).
    simpl. lia.
Defined.

End Resolvers.

(** ** Key-set import *)

Section KeySetImport.
Import Backends.
Variable X : Externals.

Lemma first_invalid_some (keys : list (JwksKey X)) (k : JwksKey X) (err : string) :
  k ∈ keys -> snd (Validate X k) = Some err ->
  is_Some (first_invalid X keys).
Proof.
  induction 1 as [k keys | k k' keys _ IH]; intros Hinv; simpl.
  - rewrite Hinv. eauto.
  - destruct (snd (Validate X k')); [eauto | apply IH, Hinv].
Qed.

Lemma first_invalid_none (keys : list (JwksKey X)) :
  first_invalid X keys = None <->
  Forall (fun k => snd (Validate X k) = None) keys.
Proof.
  induction keys as [| k keys IH]; simpl.
  - split; [constructor | reflexivity].
  - destruct (snd (Validate X k)) eqn:Hk.
    + split; [discriminate | inversion 1; congruence].
    + rewrite IH. split; [constructor; assumption | inversion 1; assumption].
Qed.

(** The loop fails on the first invalid key, whatever it stored before, and
    returns a store when every key is valid. *)
Lemma FetchKeysURL_range_first_invalid
    (keys : list (JwksKey X)) (secrets : gmap string Value) :
  match first_invalid X keys with
  | Some err =>
      FetchKeysURL_range X keys secrets = Fail (ErrBackendOauthJwksInvalidKey err)
  | None => exists store, FetchKeysURL_range X keys secrets = Return store
  end.
Proof.
  revert secrets. induction keys as [| k keys IH]; intros secrets; simpl.
  - eauto.
  - destruct (Validate X k) as [k' [err|]]; simpl; [reflexivity | apply IH].
Qed.

(** How [FetchKeysURL] ends on a document with a key list. *)
Lemma FetchKeysURL_on_key_list
    (jwks_uri : string) (data : gmap string Value) (keys : list (JwksKey X)) :
  document X jwks_uri data -> key_list X data keys ->
  FetchKeysURL X jwks_uri =
    if (length keys <? 1)%nat then Fail ErrBackendOauthJwksKeysNotFound
    else FetchKeysURL_range X keys ∅.
Proof.
  intros (resp & respBody & Hget & Hread & Hdata) (Hkeys & jwksJSON & Hm & Hu).
  unfold FetchKeysURL. rewrite Hget. simpl. rewrite Hread. simpl.
  rewrite Hdata. simpl. rewrite (bool_decide_eq_true_2 _ Hkeys). simpl.
  rewrite Hm. simpl. rewrite Hu. reflexivity.
Qed.

(** C3.  When one key of the document's key list fails validation,
    [FetchKeysURL] fails with [ErrBackendOauthJwksInvalidKey] (on the error of
    the first such key) and returns no store, whatever the other keys are. *)
Theorem FetchKeysURL_all_or_nothing
    (jwks_uri : string) (data : gmap string Value)
    (keys : list (JwksKey X)) (k : JwksKey X) (err : string) :
  document X jwks_uri data -> key_list X data keys ->
  k ∈ keys -> snd (Validate X k) = Some err ->
  exists cause,
    first_invalid X keys = Some cause /\
    FetchKeysURL X jwks_uri = Fail (ErrBackendOauthJwksInvalidKey cause) /\
    returned (FetchKeysURL X jwks_uri) = None.
Proof.
  intros Hdoc Hkeys Hin Hinv.
  destruct (first_invalid_some keys k err Hin Hinv) as [cause Hcause].
  exists cause. split; [assumption |].
  rewrite (FetchKeysURL_on_key_list _ _ _ Hdoc Hkeys).
  destruct keys as [| k0 keys]; [inversion Hin |].
  change (length (k0 :: keys) <? 1)%nat with false. cbv iota.
  pose proof (FetchKeysURL_range_first_invalid (k0 :: keys) ∅) as Hrange.
  rewrite Hcause in Hrange. rewrite Hrange. split; reflexivity.
Qed.

(** C7.  A document without a [keys] field is refused with
    [ErrBackendOauthJwksResponseKeysNotFound], and a document whose [keys]
    field decodes to the empty list with [ErrBackendOauthJwksKeysNotFound];
    no store is returned in either case. *)
Theorem FetchKeysURL_rejects_empty
    (jwks_uri : string) (data : gmap string Value) :
  document X jwks_uri data ->
  (data !! "keys" = None ->
     FetchKeysURL X jwks_uri = Fail ErrBackendOauthJwksResponseKeysNotFound /\
     returned (FetchKeysURL X jwks_uri) = None) /\
  (key_list X data [] ->
     FetchKeysURL X jwks_uri = Fail ErrBackendOauthJwksKeysNotFound /\
     returned (FetchKeysURL X jwks_uri) = None).
Proof.
  intros Hdoc. split.
  - intros Hnone. destruct Hdoc as (resp & respBody & Hget & Hread & Hdata).
    unfold FetchKeysURL. rewrite Hget. simpl. rewrite Hread. simpl.
    rewrite Hdata. simpl. rewrite bool_decide_eq_false_2.
    + split; reflexivity.
    + rewrite Hnone. intros [? ?]. discriminate.
  - intros Hkeys. rewrite (FetchKeysURL_on_key_list _ _ _ Hdoc Hkeys).
    split; reflexivity.
Qed.

End KeySetImport.

Section KeySetImportWitnesses.
Import Backends FixedKeySet Samples.

(** A witness of C3: two valid keys and an invalid one after them. *)
Lemma FetchKeysURL_all_or_nothing_witness :
  exists cause,
    first_invalid (serve (key_set three_keys) three_keys) three_keys
      = Some cause /\
    FetchKeysURL (serve (key_set three_keys) three_keys) "https://idp/jwks"
      = Fail (ErrBackendOauthJwksInvalidKey cause) /\
    returned
      (FetchKeysURL (serve (key_set three_keys) three_keys) "https://idp/jwks")
      = None.
Proof.
  apply (FetchKeysURL_all_or_nothing (serve (key_set three_keys) three_keys)
           "https://idp/jwks" (key_set three_keys) three_keys bad
           "jwks key modulus is empty").
  - exists tt, []. repeat split.
  - split; [vm_compute; eauto | exists []; split; reflexivity].
  - unfold three_keys. set_solver.
  - reflexivity.
Defined.

(** A witness of C7: the empty object, served with no key. *)
Lemma FetchKeysURL_rejects_empty_witness :
  FetchKeysURL (serve ∅ []) "https://idp/jwks"
  = Fail ErrBackendOauthJwksResponseKeysNotFound.
Proof.
  refine (proj1 (proj1 (FetchKeysURL_rejects_empty (serve ∅ [])
                          "https://idp/jwks" ∅ _) _)).
  - exists tt, []. repeat split.
  - reflexivity.
Defined.

End KeySetImportWitnesses.

(** ** Validator options *)

Section Options.
Import Config.

Lemma fresh_unused {V : Type} (m : gmap loc V) : m !! fresh (dom m) = None.
Proof. apply not_elem_of_dom. apply is_fresh. Qed.

(** C8.  [Clone] on an allocated options struct returns a new struct with the
    five validation flags of the original and with a new, empty metadata map,
    which is not the original's; the original struct and every map allocated
    before are left as they were, and an assignment through the clone's
    metadata changes neither. *)
Theorem Clone_copies_flags_fresh_metadata
    (opts : loc) (h : heap) (o : TokenValidatorOptions) :
  heap_closed h ->
  structs h !! opts = Some o ->
  exists (c m : loc) (h' : heap) (o' : TokenValidatorOptions),
    Clone opts h = Some (c, h') /\
    (* a new struct *)
    c <> opts /\ structs h !! c = None /\ structs h' !! c = Some o' /\
    (* with the flags of the original *)
    ValidateSourceAddress o' = ValidateSourceAddress o /\
    ValidateBearerHeader o' = ValidateBearerHeader o /\
    ValidateMethodPath o' = ValidateMethodPath o /\
    ValidateAccessListPathClaim o' = ValidateAccessListPathClaim o /\
    ValidateAllowMatchAll o' = ValidateAllowMatchAll o /\
    (* and a new, empty metadata map *)
    Metadata o' = Some m /\ Metadata o <> Some m /\
    maps h !! m = None /\ maps h' !! m = Some ∅ /\
    (* the original is unchanged *)
    structs h' !! opts = Some o /\
    (forall l, l <> c -> structs h' !! l = structs h !! l) /\
    (forall l, l <> m -> maps h' !! l = maps h !! l) /\
    (* also by an assignment to the clone's metadata *)
    (forall k v, exists h'',
       map_assign (Metadata o') k v h' = Some h'' /\
       map_lookup (Metadata o') k h'' = Some v /\
       structs h'' !! opts = Some o /\
       (forall l, l <> m -> maps h'' !! l = maps h !! l) /\
       (forall k', map_lookup (Metadata o) k' h'' = map_lookup (Metadata o) k' h)).
Proof.
  intros Hclosed Ho.
  set (m := fresh (dom (maps h))).
  set (c := fresh (dom (structs h))).
  assert (Hm : maps h !! m = None) by apply fresh_unused.
  assert (Hc : structs h !! c = None) by apply fresh_unused.
  assert (Hco : c <> opts) by congruence.
  assert (Hom : Metadata o <> Some m).
  { intros Heq. destruct (Hclosed opts o m Ho Heq) as [? ?]. congruence. }
  exists c, m. eexists.
  exists {| ValidateSourceAddress := ValidateSourceAddress o;
            SourceAddress := "";
            ValidateBearerHeader := ValidateBearerHeader o;
            ValidateMethodPath := ValidateMethodPath o;
            ValidateAccessListPathClaim := ValidateAccessListPathClaim o;
            ValidateAllowMatchAll := ValidateAllowMatchAll o;
            Metadata := Some m;
            Replacer := None;
            Logger := Logger o |}.
  split.
  { unfold Clone. rewrite Ho. simpl. reflexivity. }
  simpl. fold m. fold c.
  repeat match goal with |- _ /\ _ => split end;
    try reflexivity; try assumption.
  - apply lookup_insert_eq.
  - apply lookup_insert_eq.
  - rewrite lookup_insert_ne by assumption. assumption.
  - intros l Hl. apply lookup_insert_ne. congruence.
  - intros l Hl. apply lookup_insert_ne. congruence.
  - intros k v. eexists. split.
    { unfold map_assign. simpl. rewrite lookup_insert_eq. simpl. reflexivity. }
    unfold map_lookup. simpl.
    repeat match goal with |- _ /\ _ => split end.
    + rewrite !lookup_insert_eq. simpl. apply lookup_insert_eq.
    + rewrite lookup_insert_ne by assumption. assumption.
    + intros l Hl. rewrite !lookup_insert_ne by congruence. reflexivity.
    + intros k'. destruct (Metadata o) as [mo|]; [simpl | reflexivity].
      rewrite !lookup_insert_ne by congruence. reflexivity.
Qed.

(** The clone of the sample struct: the struct at address 2, its metadata
    the new map at address 2; the map of the original keeps its entry after
    an assignment to the clone's. *)
Example Clone_sample :
  fst <$> Clone 1%positive Samples.heap0 = Some 2%positive /\
  (Clone 1%positive Samples.heap0 ≫= fun '(c, h) =>
     o ← structs h !! c; Some (Metadata o, ValidateBearerHeader o))
    = Some (Some 2%positive, true) /\
  (Clone 1%positive Samples.heap0 ≫= fun '(c, h) =>
     h ← map_assign (Some 2%positive) "user" (VString "bob") h;
     Some (map_lookup (Some 1%positive) "user" h,
           map_lookup (Some 2%positive) "user" h))
    = Some (Some (VString "alice"), Some (VString "bob")).
Proof. repeat split; vm_compute; reflexivity. Qed.

(** A witness of C8: the clone of the sample struct. *)
Lemma Clone_copies_flags_witness :
  exists (c m : loc) (h' : heap) (o' : TokenValidatorOptions),
    Clone 1%positive Samples.heap0 = Some (c, h') /\
    c <> 1%positive /\ structs Samples.heap0 !! c = None /\
    structs h' !! c = Some o' /\
    ValidateSourceAddress o' = ValidateSourceAddress Samples.options0 /\
    ValidateBearerHeader o' = ValidateBearerHeader Samples.options0 /\
    ValidateMethodPath o' = ValidateMethodPath Samples.options0 /\
    ValidateAccessListPathClaim o' = ValidateAccessListPathClaim Samples.options0 /\
    ValidateAllowMatchAll o' = ValidateAllowMatchAll Samples.options0 /\
    Metadata o' = Some m /\ Metadata Samples.options0 <> Some m /\
    maps Samples.heap0 !! m = None /\ maps h' !! m = Some ∅ /\
    structs h' !! 1%positive = Some Samples.options0 /\
    (forall l, l <> c -> structs h' !! l = structs Samples.heap0 !! l) /\
    (forall l, l <> m -> maps h' !! l = maps Samples.heap0 !! l) /\
    (forall k v, exists h'',
       map_assign (Metadata o') k v h' = Some h'' /\
       map_lookup (Metadata o') k h'' = Some v /\
       structs h'' !! 1%positive = Some Samples.options0 /\
       (forall l, l <> m -> maps h'' !! l = maps Samples.heap0 !! l) /\
       (forall k', map_lookup (Metadata Samples.options0) k' h''
                   = map_lookup (Metadata Samples.options0) k' Samples.heap0)).
Proof.
  apply (Clone_copies_flags_fresh_metadata 1%positive Samples.heap0
           Samples.options0).
  - intros l o m Hl Hm. simpl in Hl.
    apply lookup_singleton_Some in Hl as [<- <-].
    injection Hm as <-. vm_compute. eauto.
  - vm_compute. reflexivity.
Defined.

End Options.

(** ** The token-list dispenser is finite *)

Section TokenListFinite.
Import TokenList.

Lemma remaining_move (n : nat) (d : Dispenser) :
  remaining (move n d) = length (tokens d) - n.
Proof. reflexivity. Qed.

Lemma remaining_nest (z : Z) (d : Dispenser) :
  remaining (nest z d) = remaining d.
Proof. reflexivity. Qed.

Lemma Next_moves (d d' : Dispenser) (b : bool) :
  Next d = (b, d') ->
  if b then remaining d' < remaining d else d' = d.
Proof.
  unfold Next. destruct (passed d <? length (tokens d))%nat eqn:Hlt;
    intros [= <- <-]; [| reflexivity].
  apply Nat.ltb_lt in Hlt. rewrite remaining_move. unfold remaining. lia.
Qed.

Lemma nextOnSameLine_moves (d d' : Dispenser) (b : bool) :
  nextOnSameLine d = (b, d') ->
  if b then remaining d' < remaining d else d' = d.
Proof.
  unfold nextOnSameLine.
  destruct (tokens d !! passed d) as [t'|] eqn:Hnext.
  - apply lookup_lt_Some in Hnext.
    assert (remaining (move (S (passed d)) d) < remaining d)
      by (rewrite remaining_move; unfold remaining; lia).
    intros Hr. repeat case_match; simplify_eq; auto.
  - intros Hr. repeat case_match; simplify_eq; auto.
Qed.

Lemma moves_le (d d' : Dispenser) (b : bool) :
  (if b then remaining d' < remaining d else d' = d) ->
  remaining d' <= remaining d.
Proof. destruct b; [lia | intros ->; lia]. Qed.

Lemma NextArg_moves (d d' : Dispenser) (b : bool) :
  NextArg d = (b, d') -> remaining d' <= remaining d.
Proof.
  unfold NextArg. destruct (nextOnSameLine d) as [ok d1] eqn:H1.
  apply nextOnSameLine_moves in H1.
  destruct ok; simpl.
  - destruct (Val d1 =? "{")%string; intros [= <- <-]; lia.
  - intros [= <- <-]. subst. lia.
Qed.

Lemma NextBlock_moves (n : Z) (d d' : Dispenser) (b : bool) :
  NextBlock n d = (b, d') ->
  if b then remaining d' < remaining d else remaining d' <= remaining d.
Proof.
  unfold NextBlock. destruct (n <? nesting d)%Z.
  - destruct (Next d) as [ok d1] eqn:H1. apply Next_moves in H1.
    destruct ok; simpl; [| intros [= <- <-]; subst; lia].
    assert (Hin : forall (k : Z -> Z),
              remaining (let '(same, d2) := nextOnSameLine d1 in
                         if negb same then nest (k (nesting d2)) d2 else d2)
              <= remaining d1).
    { intros k. destruct (nextOnSameLine d1) as [same d2] eqn:H2.
      apply nextOnSameLine_moves in H2.
      destruct same; simpl; [lia | subst; rewrite remaining_nest; lia]. }
    pose proof (Hin (fun z => z - 1)%Z) as Hclose.
    pose proof (Hin (fun z => z + 1)%Z) as Hopen. cbv beta in *.
    intros [= <- <-].
    repeat case_match; lia.
  - destruct (nextOnSameLine d) as [ok d1] eqn:H1.
    apply nextOnSameLine_moves in H1.
    destruct ok; simpl; [| intros [= <- <-]; subst; lia].
    destruct (Val d1 =? "{")%string; simpl; [| intros [= <- <-]; lia].
    destruct (Next d1) as [ok2 d2] eqn:H2. apply Next_moves, moves_le in H2.
    destruct (Val d2 =? "}")%string; intros [= <- <-];
      rewrite ?remaining_nest; lia.
Qed.

Lemma RemainingArgs_loop_moves (fuel : nat) :
  forall (d d' : Dispenser) (args : list string),
    RemainingArgs_loop fuel d = (args, d') -> remaining d' <= remaining d.
Proof.
  induction fuel as [| fuel IH]; intros d d' args; simpl.
  - intros [= <- <-]. lia.
  - destruct (NextArg d) as [ok d1] eqn:H1. apply NextArg_moves in H1.
    destruct ok.
    + destruct (RemainingArgs_loop fuel d1) as [args1 d2] eqn:H2.
      apply IH in H2. intros [= <- <-]. lia.
    + intros [= <- <-]. lia.
Qed.

Lemma Dispenser_Finite : Caddyfile.Finite remaining.
Proof.
  constructor.
  - intros h h' Hn. exact (Next_moves _ _ _ Hn).
  - intros h h' Hn. apply Next_moves in Hn. subst. lia.
  - intros n h h' Hn. exact (NextBlock_moves _ _ _ _ Hn).
  - intros n h h' Hn. exact (NextBlock_moves _ _ _ _ Hn).
  - intros h b h' Hn. exact (NextArg_moves _ _ _ Hn).
  - intros h args h' Hn. exact (RemainingArgs_loop_moves _ _ _ _ Hn).
Qed.

End TokenListFinite.

(** ** The Caddyfile parser *)

Section ParserProperties.
Import Caddyfile.
Context {H C : Type} `{!Helper H} `{!TokenConfigJSON C} `{!AccessListMethods}.

(** *** The loop over the arguments of [allow] and [deny] *)

(** The loop over a list of arguments is the loop over a prefix, then the
    loop over the rest from the state the prefix leaves. *)
Lemma acl_args_app (d : string) (pre rest : list string) :
  forall i entry mode (p : AuthProvider C),
    acl_args (H:=H) d i (pre ++ rest) entry mode p =
    '(entry', mode', p') ← acl_args d i pre entry mode p;
    acl_args d (i + length pre) rest entry' mode' p'.
Proof.
  induction pre as [| arg pre IH]; intros i entry mode p; simpl.
  - rewrite Nat.add_0_r. reflexivity.
  - replace (i + S (length pre)) with (S i + length pre) by lia.
    repeat case_match; try reflexivity; apply IH.
Qed.

(** The loop leaves the access list alone. *)
Lemma acl_args_AccessList (d : string) (args : list string) :
  forall i entry mode (p : AuthProvider C) entry' mode' p',
    acl_args (H:=H) d i args entry mode p = Return (entry', mode', p') ->
    AccessList p' = AccessList p.
Proof.
  induction args as [| arg args IH]; intros i entry mode p entry' mode' p'; simpl.
  - intros [= <- <- <-]. reflexivity.
  - repeat case_match; try discriminate; intros Hr; apply IH in Hr as ->;
      reflexivity.
Qed.

(** An accepted [allow] or [deny] appends one rule: the one its loop
    leaves. *)
Lemma acl_directive_appends (d : string) (args : list string)
    (p p' : AuthProvider C) :
  acl_directive (H:=H) d args p = Return p' ->
  exists entry mode p1,
    acl_args (H:=H) d 0 args (new_entry d) "roles" p = Return (entry, mode, p1) /\
    2 <= length args /\
    AccessList p' = (AccessList p ++ [entry])%list.
Proof.
  unfold acl_directive. destruct args as [| arg0 [| arg1 args]]; try discriminate.
  change (length (arg0 :: arg1 :: args) =? 0)%nat with false.
  change (length (arg0 :: arg1 :: args) =? 1)%nat with false. cbv iota zeta.
  fold (new_entry d).
  destruct (acl_args d 0 (arg0 :: arg1 :: args) (new_entry d) "roles" p)
    as [[[entry mode] p1]| |] eqn:Hloop; try discriminate.
  simpl. intros [= <-]. exists entry, mode, p1.
  apply acl_args_AccessList in Hloop as HA.
  simpl. rewrite HA. repeat split; [lia].
Qed.

(** The switch hands an [allow] or a [deny] to [acl_directive]. *)
Lemma root_directive_acl (fuel : nat) (d : string) (st : state C) (h h1 : H)
    (args : list string) :
  d = "allow" \/ d = "deny" ->
  RemainingArgs h = (args, h1) ->
  root_directive fuel d st h =
    match acl_directive d args (p st) with
    | Return p' => ret (mkState p' (defaultDenyACL st), h1)
    | Fail e => fail e
    | Panic => Some Panic
    end.
Proof.
  intros [-> | ->] Hargs; unfold root_directive; simpl; rewrite Hargs;
    reflexivity.
Qed.

(** An argument in mode [path], past the first and not a keyword: the test
    of [entry.Path] comes before [SetPath]. *)
Lemma acl_args_path_arg (d : string) (i : nat) (arg : string)
    (args : list string) (entry : AccessListEntry) (p : AuthProvider C) :
  i <> 0 -> arg <> "with" -> arg <> "to" ->
  acl_args (H:=H) d i (arg :: args) entry "path" p =
    if negb (Path entry =? "")%string then Fail (already_set d arg)
    else
      match SetPath arg entry with
      | inl err =>
          Fail (Errorf "%s argument http path %s error: %s"
                  [S_ d; S_ arg; E_ err])
      | inr entry =>
          acl_args d (S i) args entry "path" (set_ValidateMethodPath true p)
      end.
Proof.
  intros Hi Hwith Hto. simpl.
  apply Nat.eqb_neq in Hi. rewrite Hi.
  apply String.eqb_neq in Hwith, Hto. rewrite Hwith, Hto. reflexivity.
Qed.

(** The error of a directive the parser comes to is the error of the
    parser. *)
Lemma block_reaches_fail fuel nesting (st st' : state C) (h h' : H) fuel'
    (e : config_error H) :
  block_reaches fuel nesting st h st' h' fuel' ->
  root_directive fuel' (Val h') st' h' = Some (Fail e) ->
  root_block fuel nesting st h = Some (Fail e).
Proof.
  induction 1 as [fuel nesting st h h1 Hnb
                 | fuel nesting st h h1 st1 h2 st' h' fuel' Hnb Hd _ IH];
    intros Hfail; simpl; rewrite Hnb.
  - rewrite Hfail. reflexivity.
  - rewrite Hd. simpl. rewrite (IH Hfail). reflexivity.
Qed.

Lemma reaches_fail fuel (st st' : state C) (h h' : H) fuel'
    (e : config_error H) :
  reaches fuel st h st' h' fuel' ->
  root_directive fuel' (Val h') st' h' = Some (Fail e) ->
  segments fuel st h = Some (Fail e).
Proof.
  induction 1 as [fuel st h h1 st' h' fuel' Hn Hb
                 | fuel st h h1 st1 h2 trace st' h' fuel' Hn Hb _ IH];
    intros Hfail; simpl; rewrite Hn.
  - rewrite (block_reaches_fail _ _ _ _ _ _ _ _ Hb Hfail). reflexivity.
  - rewrite Hb. simpl. rewrite (IH Hfail). reflexivity.
Qed.

Lemma parser_fails_where_directive_fails fuel (st' : state C) (h h' : H) fuel'
    (e : config_error H) :
  reaches fuel (mkState initial_provider true) h st' h' fuel' ->
  root_directive fuel' (Val h') st' h' = Some (Fail e) ->
  parseCaddyfileTokenValidator fuel h = Some (Fail e).
Proof.
  intros Hreach Hfail. unfold parseCaddyfileTokenValidator.
  rewrite (reaches_fail _ _ _ _ _ _ _ Hreach Hfail). reflexivity.
Qed.

(** A directive whose second argument is a keyword passes the test of the
    number of arguments, and the loop goes from the claim to the arguments
    after the keyword: [AddValue] is not called for the first two. *)
Lemma acl_directive_keyword_second (d claim keyword : string)
    (rest : list string) (p : AuthProvider C) :
  keyword = "with" \/ keyword = "to" ->
  acl_directive (H:=H) d (claim :: keyword :: rest) p =
    match SetClaim claim (new_entry d) with
    | inl err =>
        Fail (Errorf "%s argument claim key %s error: %s"
                [S_ d; S_ claim; E_ err])
    | inr entry =>
        '(entry, _, p) ←
          acl_args d 2 rest entry
            (if (keyword =? "with")%string then "method" else "path") p;
        Return (set_AccessList (AccessList p ++ [entry]) p)
    end.
Proof.
  intros [-> | ->]; unfold acl_directive; simpl; fold (new_entry d);
    destruct (SetClaim claim (new_entry d)); reflexivity.
Qed.


End ParserProperties.

(** *** The parser ends on a finite dispenser *)

Section ParserEnds.
Import Caddyfile.
Context {H C : Type} `{!Helper H} `{!TokenConfigJSON C} `{!AccessListMethods}.
Variable remaining : H -> nat.
Hypothesis fin : Finite remaining.

Lemma ends_within_ret {A : Type} (after : A -> H) (bound : nat) (a : A) :
  remaining (after a) <= bound -> ends_within remaining after bound (ret a).
Proof.
  intros Hle. exists (Return a). split; [reflexivity |].
  intros ? [= <-]. exact Hle.
Qed.

Lemma ends_within_fail {A : Type} (after : A -> H) (bound : nat)
    (e : config_error H) :
  ends_within remaining after bound (fail e).
Proof. exists (Fail e). split; [reflexivity | discriminate]. Qed.

Lemma ends_within_bind {A B : Type} (after : A -> H) (after' : B -> H)
    (bound bound' : nat) (x : fueled (config_error H) A)
    (f : A -> fueled (config_error H) B) :
  ends_within remaining after bound x ->
  (forall a, remaining (after a) <= bound ->
     ends_within remaining after' bound' (f a)) ->
  ends_within remaining after' bound' (x ≫= f).
Proof.
  intros (r & -> & Hr) Hf. destruct r as [a | e |]; simpl.
  - apply Hf, Hr. reflexivity.
  - exists (Fail e). split; [reflexivity | discriminate].
  - exists Panic. split; [reflexivity | discriminate].
Qed.

Lemma ends_within_le {A : Type} (after : A -> H) (b b' : nat)
    (x : fueled (config_error H) A) :
  b <= b' -> ends_within remaining after b x ->
  ends_within remaining after b' x.
Proof.
  intros Hb (r & Hr & Hle). exists r. split; [exact Hr |].
  intros a Ha. specialize (Hle a Ha). lia.
Qed.

Lemma tokenConfigProps_loop_ends (fuel : nat) (subDirective : string) (n : Z) :
  forall props h, remaining h < fuel ->
    ends_within remaining snd (remaining h)
      (tokenConfigProps_loop fuel subDirective n props h).
Proof.
  induction fuel as [| fuel IH]; intros props h Hfuel; [lia |]. simpl.
  destruct (NextBlock n h) as [[] h1] eqn:Hnb.
  - apply (NextBlock_true _ fin) in Hnb.
    assert (Hbody : ends_within remaining snd (remaining h)
              (let '(ok, h0) := NextArg h1 in
               if negb ok
               then fail (Errf h0 "auth backend %s subdirective %s has no value"
                            [S_ subDirective; S_ (Val h1)])
               else tokenConfigProps_loop fuel subDirective n
                      (<[Val h1:=VString (Val h0)]> props) h0)).
    { destruct (NextArg h1) as [[] h2] eqn:Hna; simpl.
      - apply (NextArg_le _ fin) in Hna.
        apply (ends_within_le snd (remaining h2)); [lia |]. apply IH. lia.
      - apply ends_within_fail. }
    destruct (Val h1 =? "token_rsa_file")%string; exact Hbody.
  - apply (NextBlock_false _ fin) in Hnb. apply ends_within_ret. exact Hnb.
Qed.

Lemma trusted_tokens_loop_ends (fuel : nat) (n : Z) :
  forall (p : AuthProvider C) h, remaining h < fuel ->
    ends_within remaining snd (remaining h) (trusted_tokens_loop fuel n p h).
Proof.
  induction fuel as [| fuel IH]; intros p h Hfuel; [lia |]. simpl.
  destruct (NextBlock n h) as [[] h1] eqn:Hnb.
  - apply (NextBlock_true _ fin) in Hnb.
    apply (ends_within_bind snd snd (remaining h1)).
    + apply tokenConfigProps_loop_ends. lia.
    + intros [props h2] Hle. simpl in Hle.
      destruct (json_Marshal props); [apply ends_within_fail |].
      destruct (json_Unmarshal _); [apply ends_within_fail |].
      apply (ends_within_le snd (remaining h2)); [lia |]. apply IH. lia.
  - apply (NextBlock_false _ fin) in Hnb. apply ends_within_ret. exact Hnb.
Qed.

Ltac laws :=
  repeat match goal with
  | Hx : RemainingArgs _ = (_, _) |- _ => apply (RemainingArgs_le _ fin) in Hx
  | Hx : NextArg _ = (_, _) |- _ => apply (NextArg_le _ fin) in Hx
  end.

Ltac leaf :=
  first [ apply ends_within_fail
        | apply ends_within_ret; simpl; lia
        | exists Panic; split; [reflexivity | discriminate] ].

Lemma root_directive_ends (fuel : nat) (d : string) (st : state C) (h : H) :
  remaining h < fuel ->
  ends_within remaining snd (remaining h) (root_directive fuel d st h).
Proof.
  intros Hfuel. unfold root_directive.
  destruct (d =? "primary")%string; [repeat case_match; laws; leaf |].
  destruct (d =? "context")%string; [repeat case_match; laws; leaf |].
  destruct (d =? "auth_url")%string; [repeat case_match; laws; leaf |].
  destruct (d =? "trusted_tokens")%string.
  { apply (ends_within_bind snd snd (remaining h)).
    - apply trusted_tokens_loop_ends. exact Hfuel.
    - intros [p1 h1] Hle. apply ends_within_ret. exact Hle. }
  repeat case_match; laws; leaf.
Qed.

Lemma root_block_ends (fuel : nat) (n : Z) :
  forall (st : state C) h, remaining h < fuel ->
    ends_within remaining (fun r => snd (fst r)) (remaining h)
      (root_block fuel n st h).
Proof.
  induction fuel as [| fuel IH]; intros st h Hfuel; [lia |]. simpl.
  destruct (NextBlock n h) as [[] h1] eqn:Hnb.
  - apply (NextBlock_true _ fin) in Hnb.
    apply (ends_within_bind snd _ (remaining h1)).
    + apply root_directive_ends. lia.
    + intros [st1 h2] Hle. simpl in Hle.
      apply (ends_within_bind (fun r => snd (fst r)) _ (remaining h2)).
      * apply IH. lia.
      * intros [[st2 h3] trace] Hle'. simpl in Hle'.
        apply ends_within_ret. simpl. lia.
  - apply (NextBlock_false _ fin) in Hnb. apply ends_within_ret. exact Hnb.
Qed.

Lemma segments_ends (fuel : nat) :
  forall (st : state C) h, remaining h < fuel ->
    ends_within remaining (fun r => snd (fst r)) (remaining h)
      (segments fuel st h).
Proof.
  induction fuel as [| fuel IH]; intros st h Hfuel; [lia |]. simpl.
  destruct (Next h) as [[] h1] eqn:Hnext.
  - apply (Next_true _ fin) in Hnext.
    apply (ends_within_bind (fun r => snd (fst r)) _ (remaining h1)).
    + apply root_block_ends. lia.
    + intros [[st1 h2] trace] Hle. simpl in Hle.
      apply (ends_within_bind (fun r => snd (fst r)) _ (remaining h2)).
      * apply IH. lia.
      * intros [[st2 h3] trace'] Hle'. simpl in Hle'.
        apply ends_within_ret. simpl. lia.
  - apply (Next_false _ fin) in Hnext. apply ends_within_ret. exact Hnext.
Qed.

(** With more fuel than the dispenser has tokens left, the parser returns. *)
Lemma parseCaddyfileTokenValidator_returns (fuel : nat) (h : H) :
  remaining h < fuel ->
  exists r, parseCaddyfileTokenValidator (C:=C) fuel h = Some r.
Proof.
  intros Hfuel. unfold parseCaddyfileTokenValidator.
  destruct (segments_ends fuel (mkState initial_provider true) h Hfuel)
    as (r & -> & _).
  destruct r as [[[st h'] trace] | e |]; simpl; eauto.
Qed.

End ParserEnds.

(** *** The default policy and the access list *)

Section ParserRuns.
Import Caddyfile.
Context {H C : Type} `{!Helper H} `{!TokenConfigJSON C} `{!AccessListMethods}.

Ltac branch :=
  repeat case_match; unfold ret, fail in *; intros; simplify_eq; simpl;
  rewrite ?andb_true_r; reflexivity.

Ltac literal E := apply String.eqb_eq in E as ->; simpl.

(** Only a [default allow] clears the flag [defaultDenyACL]. *)
Lemma root_directive_flag (fuel : nat) (d : string) (st st' : state C)
    (h h' : H) :
  root_directive fuel d st h = Some (Return (st', h')) ->
  defaultDenyACL st' = defaultDenyACL st && negb (is_default_allow (d, h)).
Proof.
  unfold root_directive, is_default_allow. simpl.
  destruct (d =? "primary")%string eqn:E; [literal E; branch |]. clear E.
  destruct (d =? "context")%string eqn:E; [literal E; branch |]. clear E.
  destruct (d =? "auth_url")%string eqn:E; [literal E; branch |]. clear E.
  destruct (d =? "trusted_tokens")%string eqn:E.
  { literal E. destruct (trusted_tokens_loop _ _ _ _) as [[[p1 h1] | |] |];
      simpl; branch. }
  clear E.
  destruct (d =? "allow")%string eqn:E; [literal E; branch |]. clear E.
  destruct (d =? "deny")%string eqn:E; [literal E; branch |]. clear E.
  simpl.
  destruct (d =? "disable")%string eqn:E; [literal E; branch |]. clear E.
  destruct (d =? "validate")%string eqn:E; [literal E; branch |]. clear E.
  destruct (d =? "option")%string eqn:E; [literal E; branch |]. clear E.
  destruct (d =? "enable")%string eqn:E; [literal E; branch |]. clear E.
  destruct (d =? "default")%string eqn:E.
  { simpl. destruct (NextArg h) as [[] h1]; simpl; [| discriminate].
    destruct (Val h1 =? "allow")%string; unfold ret; intros; simplify_eq;
      simpl; rewrite ?andb_true_r, ?andb_false_r; reflexivity. }
  simpl. branch.
Qed.

Lemma root_block_flag (fuel : nat) (n : Z) :
  forall (st st' : state C) (h h' : H) trace,
    root_block fuel n st h = Some (Return (st', h', trace)) ->
    defaultDenyACL st' = defaultDenyACL st && negb (default_allow_given trace).
Proof.
  induction fuel as [| fuel IH]; intros st st' h h' trace; [discriminate |].
  simpl. destruct (NextBlock n h) as [[] h1].
  - destruct (root_directive fuel (Val h1) st h1) as [[[st1 h2] | |] |] eqn:Hd;
      try discriminate. simpl.
    destruct (root_block fuel n st1 h2) as [[[[st2 h3] trace2] | |] |] eqn:Hb;
      try discriminate. simpl.
    unfold ret. intros. simplify_eq.
    apply root_directive_flag in Hd. apply IH in Hb. rewrite Hb, Hd.
    unfold default_allow_given. simpl.
    rewrite negb_orb, andb_assoc. reflexivity.
  - unfold ret. intros. simplify_eq. simpl. rewrite andb_true_r. reflexivity.
Qed.

Lemma segments_flag (fuel : nat) :
  forall (st st' : state C) (h h' : H) trace,
    segments fuel st h = Some (Return (st', h', trace)) ->
    defaultDenyACL st' = defaultDenyACL st && negb (default_allow_given trace).
Proof.
  induction fuel as [| fuel IH]; intros st st' h h' trace; [discriminate |].
  simpl. destruct (Next h) as [[] h1].
  - destruct (root_block fuel (Nesting h1) st h1)
      as [[[[st1 h2] trace1] | |] |] eqn:Hb; try discriminate. simpl.
    destruct (segments fuel st1 h2) as [[[[st2 h3] trace2] | |] |] eqn:Hs;
      try discriminate. simpl.
    unfold ret. intros. simplify_eq.
    apply root_block_flag in Hb. apply IH in Hs. rewrite Hs, Hb.
    unfold default_allow_given. rewrite existsb_app, negb_orb, andb_assoc.
    reflexivity.
  - unfold ret. intros. simplify_eq. simpl. rewrite andb_true_r. reflexivity.
Qed.

Lemma trusted_tokens_loop_AccessList (fuel : nat) (n : Z) :
  forall (p p' : AuthProvider C) (h h' : H),
    trusted_tokens_loop fuel n p h = Some (Return (p', h')) ->
    AccessList p' = AccessList p.
Proof.
  induction fuel as [| fuel IH]; intros p p' h h'; [discriminate |]. simpl.
  destruct (NextBlock n h) as [[] h1].
  - destruct (tokenConfigProps_loop _ _ _ _ _) as [[[props h2] | |] |];
      try discriminate. simpl.
    destruct (json_Marshal props); [discriminate |].
    destruct (json_Unmarshal _); [discriminate |].
    intros Hr. apply IH in Hr. exact Hr.
  - intros [= <- <-]. reflexivity.
Qed.

Lemma rules_of_nil : rules_of (H:=H) [] [].
Proof. reflexivity. Qed.

Lemma rules_of_app (t1 t2 : list (string * H)) (e1 e2 : list AccessListEntry) :
  rules_of t1 e1 -> rules_of t2 e2 -> rules_of (t1 ++ t2) (e1 ++ e2).
Proof.
  unfold rules_of. intros Hl1 Hl2.
  rewrite List.filter_app, !length_app. congruence.
Qed.

Ltac same_list :=
  repeat case_match; unfold ret, fail in *; intros; simplify_eq; simpl;
  exists []; rewrite app_nil_r; split; reflexivity.

(** The switch appends one rule for an [allow] or a [deny] and leaves the
    access list alone for any other directive. *)
Lemma root_directive_AccessList (fuel : nat) (d : string) (st st' : state C)
    (h h' : H) :
  root_directive fuel d st h = Some (Return (st', h')) ->
  exists entries,
    AccessList (p st') = (AccessList (p st) ++ entries)%list /\
    rules_of [(d, h)] entries.
Proof.
  unfold rules_of, is_acl. simpl fst.
  destruct (d =? "allow")%string eqn:Ea;
    [| destruct (d =? "deny")%string eqn:Ed].
  1, 2: (intros Hr;
    assert (Hd : d = "allow" \/ d = "deny")
      by (first [left; apply String.eqb_eq; assumption
                | right; apply String.eqb_eq; assumption]);
    destruct (RemainingArgs h) as [args h1] eqn:Hargs;
    rewrite (root_directive_acl fuel d st h h1 args Hd Hargs) in Hr;
    destruct (acl_directive d args (p st)) as [p1 | |] eqn:Hacl;
    try discriminate; unfold ret in Hr; simplify_eq;
    apply acl_directive_appends in Hacl as (entry & ? & ? & _ & _ & Hlist);
    exists [entry]; simpl; rewrite ?Ea, ?Ed; simpl;
    split; [assumption | reflexivity]).
  unfold root_directive. simpl List.filter. cbv beta. simpl fst.
  rewrite Ea, Ed. simpl.
  destruct (d =? "primary")%string eqn:E; [same_list |]. clear E.
  destruct (d =? "context")%string eqn:E; [same_list |]. clear E.
  destruct (d =? "auth_url")%string eqn:E; [same_list |]. clear E.
  destruct (d =? "trusted_tokens")%string eqn:E.
  { destruct (trusted_tokens_loop _ _ _ _) as [[[p1 h1] | |] |] eqn:Hloop;
      simpl; try discriminate.
    apply trusted_tokens_loop_AccessList in Hloop. unfold ret. intros.
    simplify_eq. simpl. exists []. rewrite app_nil_r.
    split; [exact Hloop | reflexivity]. }
  same_list.
Qed.

Lemma root_block_AccessList (fuel : nat) (n : Z) :
  forall (st st' : state C) (h h' : H) trace,
    root_block fuel n st h = Some (Return (st', h', trace)) ->
    exists entries,
      AccessList (p st') = (AccessList (p st) ++ entries)%list /\
      rules_of trace entries.
Proof.
  induction fuel as [| fuel IH]; intros st st' h h' trace; [discriminate |].
  simpl. destruct (NextBlock n h) as [[] h1].
  - destruct (root_directive fuel (Val h1) st h1) as [[[st1 h2] | |] |] eqn:Hd;
      try discriminate. simpl.
    destruct (root_block fuel n st1 h2) as [[[[st2 h3] trace2] | |] |] eqn:Hb;
      try discriminate. simpl.
    unfold ret. intros. simplify_eq.
    apply root_directive_AccessList in Hd as (e1 & Hl1 & Hr1).
    apply IH in Hb as (e2 & Hl2 & Hr2).
    exists (e1 ++ e2)%list. split.
    + rewrite Hl2, Hl1, app_assoc. reflexivity.
    + apply (rules_of_app [_] _ _ _ Hr1 Hr2).
  - unfold ret. intros. simplify_eq. exists []. rewrite app_nil_r.
    split; [reflexivity | apply rules_of_nil].
Qed.

Lemma segments_AccessList (fuel : nat) :
  forall (st st' : state C) (h h' : H) trace,
    segments fuel st h = Some (Return (st', h', trace)) ->
    exists entries,
      AccessList (p st') = (AccessList (p st) ++ entries)%list /\
      rules_of trace entries.
Proof.
  induction fuel as [| fuel IH]; intros st st' h h' trace; [discriminate |].
  simpl. destruct (Next h) as [[] h1].
  - destruct (root_block fuel (Nesting h1) st h1)
      as [[[[st1 h2] trace1] | |] |] eqn:Hb; try discriminate. simpl.
    destruct (segments fuel st1 h2) as [[[[st2 h3] trace2] | |] |] eqn:Hs;
      try discriminate. simpl.
    unfold ret. intros. simplify_eq.
    apply root_block_AccessList in Hb as (e1 & Hl1 & Hr1).
    apply IH in Hs as (e2 & Hl2 & Hr2).
    exists (e1 ++ e2)%list. split.
    + rewrite Hl2, Hl1, app_assoc. reflexivity.
    + apply rules_of_app; assumption.
  - unfold ret. intros. simplify_eq. exists []. rewrite app_nil_r.
    split; [reflexivity | apply rules_of_nil].
Qed.


End ParserRuns.

(** *** The parser on concrete configurations *)

Section ParserRunsOnTokens.
Import TokenList AccessListSpec Caddyfile.


(** The access list that configuration gives, and the one it gives without
    its [default allow]. *)
Example default_allow_access_list :
  AccessList <$>
    (parseCaddyfileTokenValidator (C:=unit) 10 Samples.allow_then_default_allow
       ≫= returned)
  = Some [ {| Action := "allow"; Claim := "roles"; Values := ["admin"];
              Methods := []; Path := "" |};
           catch_all ] /\
  AccessList <$>
    (parseCaddyfileTokenValidator (C:=unit) 10
       (TokenList.dispenser [["jwt"; "{"]; ["allow"; "roles"; "admin"]; ["}"]])
       ≫= returned)
  = Some [ {| Action := "allow"; Claim := "roles"; Values := ["admin"];
              Methods := []; Path := "" |} ].
Proof. split; vm_compute; reflexivity. Qed.


(** C5, where the code departs from it.  The parser accepts the directive
    [allow roles with get] and appends a rule whose list of values is empty:
    the test of the number of arguments counts the keyword [with] as a
    value. *)
Theorem allow_without_values_accepted :
  exists provider,
    parseCaddyfileTokenValidator (C:=unit) 10 Samples.allow_without_values
      = Some (Return provider) /\
    AccessList provider =
      [ {| Action := "allow"; Claim := "roles"; Values := [];
           Methods := ["get"]; Path := "" |} ].
Proof. eexists. split; vm_compute; reflexivity. Qed.

End ParserRunsOnTokens.

Section ParserPathTwice.
Import TokenList AccessListSpec Caddyfile.


End ParserPathTwice.

Section ParserValues.
Import AccessListSpec Caddyfile.
Context {H C : Type} `{!Helper H} `{!TokenConfigJSON C}.

(** The same on the directive alone, for every dispenser and provider, and
    with [to] in the place of [with]. *)
Lemma acl_directive_without_values (p : AuthProvider C) :
  acl_directive (H:=H) "allow" ["roles"; "with"; "get"] p =
    Return (set_AccessList
              (AccessList p ++
               [ {| Action := "allow"; Claim := "roles"; Values := [];
                    Methods := ["get"]; Path := "" |} ])
              (set_ValidateMethodPath true p)) /\
  acl_directive (H:=H) "deny" ["roles"; "to"; "/admin"] p =
    Return (set_AccessList
              (AccessList p ++
               [ {| Action := "deny"; Claim := "roles"; Values := [];
                    Methods := []; Path := "/admin" |} ])
              (set_ValidateMethodPath true p)).
Proof. split; reflexivity. Qed.

(** With the methods modelled from the spec, the loop keeps the action, adds
    to the values, and past the first argument keeps the claim. *)
Lemma acl_args_entry (d : string) (args : list string) :
  forall i entry mode (p : AuthProvider C) entry' mode' p',
    acl_args (H:=H) d i args entry mode p = Return (entry', mode', p') ->
    Action entry' = Action entry /\
    (exists more, Values entry' = (Values entry ++ more)%list) /\
    (i <> 0 -> Claim entry' = Claim entry).
Proof.
  induction args as [| arg args IH]; intros i entry mode p entry' mode' p'.
  - intros [= <- <- <-]. repeat split. exists []. rewrite app_nil_r. reflexivity.
  - simpl. unfold AccessListSpec.SetClaim, AccessListSpec.AddValue,
      AccessListSpec.AddMethod, AccessListSpec.SetPath.
    destruct (i =? 0)%nat eqn:Hi.
    + destruct (arg =? "")%string; [discriminate |].
      intros Hr. apply IH in Hr as (-> & Hv & Hc). simpl in *.
      apply Nat.eqb_eq in Hi. repeat split; [exact Hv | intros; lia].
    + repeat case_match; simplify_eq; try discriminate;
        intros Hr; apply IH in Hr as (-> & [more Hv] & Hc); simpl in *;
        (split; [reflexivity |]);
        (split; [| intros _; apply Hc; lia]);
        try (exists more; exact Hv).
      exists (arg :: more). rewrite Hv, <- app_assoc. reflexivity.
Qed.

(** With the methods modelled from the spec, the rule of an accepted [allow]
    or [deny] has the action of its directive and a claim, the first
    argument, that is not empty. *)
Lemma acl_directive_claim (d : string) (args : list string)
    (p p' : AuthProvider C) :
  acl_directive (H:=H) d args p = Return p' ->
  exists entry,
    AccessList p' = (AccessList p ++ [entry])%list /\
    Claim entry <> "" /\ head args = Some (Claim entry) /\
    (Action entry = "allow" \/ Action entry = "deny").
Proof.
  intros Hacc.
  apply acl_directive_appends in Hacc as (entry & mode & p1 & Hloop & Hlen & Hl).
  exists entry. split; [exact Hl |].
  destruct args as [| arg args]; [simpl in Hlen; lia |].
  pose proof (acl_args_entry _ _ _ _ _ _ _ _ _ Hloop) as (Hact & _ & _).
  simpl in Hloop. unfold AccessListSpec.SetClaim in Hloop.
  destruct (arg =? "")%string eqn:Harg; [discriminate |].
  apply acl_args_entry in Hloop as (_ & _ & Hc). rewrite Hc by lia. simpl.
  repeat split.
  - intros ->. discriminate.
  - rewrite Hact. unfold new_entry. destruct (d =? "allow")%string; simpl; auto.
Qed.

(** What the parser does ensure of the values: a second argument that is not
    a keyword is a value of the rule. *)
Lemma acl_directive_first_value (d claim value : string) (rest : list string)
    (p p' : AuthProvider C) :
  value <> "with" -> value <> "to" ->
  acl_directive (H:=H) d (claim :: value :: rest) p = Return p' ->
  exists entry values,
    AccessList p' = (AccessList p ++ [entry])%list /\
    Values entry = value :: values.
Proof.
  intros Hwith Hto Hacc.
  apply acl_directive_appends in Hacc as (entry & mode & p1 & Hloop & _ & Hl).
  simpl in Hloop. unfold AccessListSpec.SetClaim, AccessListSpec.AddValue in Hloop.
  destruct (claim =? "")%string; [discriminate |].
  apply String.eqb_neq in Hwith, Hto. rewrite Hwith, Hto in Hloop.
  simpl in Hloop.
  apply acl_args_entry in Hloop as (_ & [more Hv] & _). simpl in Hv.
  assert (Hnil : Values (new_entry d) = [])
    by (unfold new_entry; destruct (d =? "allow")%string; reflexivity).
  rewrite Hnil in Hv. exists entry, more. split; [exact Hl | exact Hv].
Qed.

End ParserValues.

(** * Further properties *)

(** ** Key resolvers *)

Section ResolversFurther.
Import Backends.

(** X1.  A backend built from a secret of 16 bytes or more gives every HMAC
    token the bytes of that secret, whatever the token's header: [kid] and
    [alg] are not read. *)
Theorem secret_backend_gives_secret (s : string) (token : Token) (name : string) :
  16 <= String.length s ->
  Method token = SigningMethodHMAC name ->
  exists b,
    NewSecretKeyTokenBackend s = Return b /\
    SecretKeyTokenBackend_ProvideKey b token
      = Return (VBytes (String.list_byte_of_string s)) /\
    forall header,
      SecretKeyTokenBackend_ProvideKey b
        {| Method := Method token; Header := header |}
      = SecretKeyTokenBackend_ProvideKey b token.
Proof.
  intros Hlen Hm. unfold NewSecretKeyTokenBackend.
  apply Nat.ltb_ge in Hlen. rewrite Hlen. eexists. split; [reflexivity |].
  unfold SecretKeyTokenBackend_ProvideKey. simpl. rewrite Hm. simpl.
  split; reflexivity.
Qed.

Lemma secret_backend_gives_secret_witness :
  exists b,
    NewSecretKeyTokenBackend "0123456789abcdef" = Return b /\
    SecretKeyTokenBackend_ProvideKey b (Samples.hs256 (Some "k1"))
      = Return (VBytes (String.list_byte_of_string "0123456789abcdef")) /\
    forall header,
      SecretKeyTokenBackend_ProvideKey b
        {| Method := Method (Samples.hs256 (Some "k1")); Header := header |}
      = SecretKeyTokenBackend_ProvideKey b (Samples.hs256 (Some "k1")).
Proof.
  apply (secret_backend_gives_secret "0123456789abcdef"
           (Samples.hs256 (Some "k1")) "HS256").
  - simpl. lia.
  - reflexivity.
Defined.

(** X2.  The RSA resolver reads one entry of the store, the one under the
    identifier it looks up: setting or deleting any other entry changes
    nothing of what it returns for the token. *)
Theorem ProvideKey_reads_one_entry
    (b : RSAKeyTokenBackend) (token : Token) (id : string) (v : Value) :
  id <> looked_up token ->
  RSAKeyTokenBackend_ProvideKey (NewRSAKeyTokenBackend (<[id := v]> (secrets b)))
    token
    = RSAKeyTokenBackend_ProvideKey b token /\
  RSAKeyTokenBackend_ProvideKey (NewRSAKeyTokenBackend (delete id (secrets b)))
    token
    = RSAKeyTokenBackend_ProvideKey b token.
Proof.
  intros Hid. unfold RSAKeyTokenBackend_ProvideKey, looked_up in *. simpl.
  destruct (assert_SigningMethodRSA (Method token)); simpl;
    [| split; reflexivity].
  destruct (assert_string (index (Header token) "kid")) as [kid|];
    rewrite lookup_insert_ne, lookup_delete_ne by assumption;
    split; reflexivity.
Qed.

Lemma ProvideKey_reads_one_entry_witness :
  RSAKeyTokenBackend_ProvideKey
    (NewRSAKeyTokenBackend (<["0" := VNil]> (secrets Samples.store)))
    (Samples.rs256 (Some "k1"))
    = RSAKeyTokenBackend_ProvideKey Samples.store (Samples.rs256 (Some "k1")) /\
  RSAKeyTokenBackend_ProvideKey
    (NewRSAKeyTokenBackend (delete "0" (secrets Samples.store)))
    (Samples.rs256 (Some "k1"))
    = RSAKeyTokenBackend_ProvideKey Samples.store (Samples.rs256 (Some "k1")).
Proof.
  apply (ProvideKey_reads_one_entry Samples.store (Samples.rs256 (Some "k1"))
           "0" VNil).
  vm_compute. discriminate.
Defined.

(** X3.  When the RSA resolver fails or panics, the cause is exact.  It
    returns [ErrUnexpectedKID] exactly for an RSA token with a string [kid]
    whose entry is absent or of another type; [ErrNoRSAKeyFound] exactly for
    an RSA token without a string [kid] when "0" has no such entry; and it
    panics exactly when the entry looked up is a nil pointer to a private
    key. *)
Theorem ProvideKey_failure_causes (b : RSAKeyTokenBackend) (token : Token) :
  (RSAKeyTokenBackend_ProvideKey b token = Fail ErrUnexpectedKID <->
     assert_SigningMethodRSA (Method token) = true /\
     is_Some (assert_string (index (Header token) "kid")) /\
     no_rsa_entry b token) /\
  (RSAKeyTokenBackend_ProvideKey b token = Fail ErrNoRSAKeyFound <->
     assert_SigningMethodRSA (Method token) = true /\
     assert_string (index (Header token) "kid") = None /\
     no_rsa_entry b token) /\
  (RSAKeyTokenBackend_ProvideKey b token = Panic <->
     assert_SigningMethodRSA (Method token) = true /\
     secrets b !! looked_up token = Some (VRSAPrivateKey None)).
Proof.
  unfold no_rsa_entry.
  destruct (assert_SigningMethodRSA (Method token)) eqn:HRSA.
  2: { unfold RSAKeyTokenBackend_ProvideKey. rewrite HRSA. simpl.
       repeat split; first [discriminate | intros (? & _); discriminate]. }
  rewrite (ProvideKey_RSA_lookup b token HRSA).
  assert (Hsome : forall o : option string, is_Some o -> o <> None)
    by (intros o [x ->]; discriminate).
  destruct (assert_string (index (Header token) "kid")) as [kid|] eqn:Hkid;
    (destruct (secrets b !! looked_up token)
       as [[| | | | | | |pub|[key|]]|] eqn:Hval; simpl;
     repeat split;
     try discriminate; try (intros; simplify_eq; eauto; fail);
     try (intros (_ & Hs & _); apply Hsome in Hs; congruence);
     try (intros (_ & ? & _); discriminate);
     try (intros (_ & _ & Hno); specialize (Hno _ eq_refl); discriminate);
     try (intros (_ & ?); discriminate)).
Qed.

(** X4.  A store of private keys resolves as the store of their public
    parts: replacing every private key by its public key changes no result
    of the RSA resolver. *)
Theorem ProvideKey_on_public_store (b : RSAKeyTokenBackend) (token : Token) :
  RSAKeyTokenBackend_ProvideKey (NewRSAKeyTokenBackend (publicize <$> secrets b))
    token
  = RSAKeyTokenBackend_ProvideKey b token.
Proof.
  unfold RSAKeyTokenBackend_ProvideKey. simpl.
  destruct (assert_SigningMethodRSA (Method token)); simpl; [| reflexivity].
  destruct (assert_string (index (Header token) "kid")) as [kid|];
    rewrite lookup_fmap;
    (destruct (secrets b !! _) as [[| | | | | | |pub|[key|]]|]; reflexivity).
Qed.

End ResolversFurther.

(** ** Import of a key set *)

Section KeySetImportFurther.
Import Backends.
Variable X : Externals.

(** The loop either fails on the first invalid key or returns the store
    [imported] describes. *)
Lemma FetchKeysURL_range_imported
    (keys : list (JwksKey X)) (secrets : gmap string Value) :
  FetchKeysURL_range X keys secrets =
    match first_invalid X keys with
    | Some err => Fail (ErrBackendOauthJwksInvalidKey err)
    | None => Return (imported X keys secrets)
    end.
Proof.
  revert secrets. induction keys as [| k keys IH]; intros secrets; simpl.
  - reflexivity.
  - unfold validated. destruct (Validate X k) as [k' [err|]]; simpl;
      [reflexivity | apply IH].
Qed.

Lemma named_cons (id : string) (k : JwksKey X) (keys : list (JwksKey X)) :
  named X id (k :: keys) =
    if decide (KeyID X (validated X k) = id)
    then validated X k :: named X id keys else named X id keys.
Proof. unfold named. rewrite fmap_cons, filter_cons. reflexivity. Qed.

(** An entry of the imported store is the public key of the last key of the
    list with that identifier, or what the store held before when the list
    has none. *)
Lemma imported_lookup
    (keys : list (JwksKey X)) (secrets : gmap string Value) (id : string) :
  imported X keys secrets !! id =
    match last (named X id keys) with
    | Some k => Some (GetPublicKey X k)
    | None => secrets !! id
    end.
Proof.
  revert secrets. induction keys as [| k keys IH]; intros secrets; simpl.
  - reflexivity.
  - rewrite IH, named_cons.
    destruct (decide (KeyID X (validated X k) = id)) as [Heq | Hne].
    + destruct (named X id keys) as [| k' ks] eqn:Hn.
      * simpl. rewrite Heq. apply lookup_insert_eq.
      * rewrite last_cons_cons. destruct (last (k' :: ks)) eqn:Hl;
          [reflexivity |].
        apply last_None in Hl. discriminate.
    + destruct (last (named X id keys)); [reflexivity |].
      apply lookup_insert_ne. assumption.
Qed.

Lemma imported_size (keys : list (JwksKey X)) (secrets : gmap string Value) :
  size (imported X keys secrets) <= size secrets + length keys.
Proof.
  revert secrets. induction keys as [| k keys IH]; intros secrets; simpl.
  - lia.
  - etransitivity; [apply IH |]. rewrite map_size_insert.
    destruct (secrets !! _); unfold id; lia.
Qed.

Lemma named_elem (k : JwksKey X) (keys : list (JwksKey X)) :
  k ∈ keys -> validated X k ∈ named X (KeyID X (validated X k)) keys.
Proof.
  intros Hin. unfold named. apply list_elem_of_filter. split; [reflexivity |].
  apply list_elem_of_fmap. eauto.
Qed.

(** What [FetchKeysURL] does with the responses of the calls it makes. *)
Lemma FetchKeysURL_cases (jwks_uri : string) :
  match http_Get X jwks_uri with
  | inl m => FetchKeysURL X jwks_uri = Fail (Foreign m)
  | inr resp =>
  match ioutil_ReadAll X resp with
  | inl m => FetchKeysURL X jwks_uri = Fail (Foreign m)
  | inr respBody =>
  match json_Unmarshal_map X respBody with
  | inl m => FetchKeysURL X jwks_uri = Fail (Foreign m)
  | inr data =>
      document X jwks_uri data /\
      match data !! "keys" with
      | None =>
          FetchKeysURL X jwks_uri = Fail ErrBackendOauthJwksResponseKeysNotFound
      | Some _ =>
      match json_Marshal X (index data "keys") with
      | inl m =>
          FetchKeysURL X jwks_uri = Fail (ErrBackendOauthJwksKeysParseFailed m)
      | inr jwksJSON =>
      match json_Unmarshal_keys X jwksJSON with
      | inl m => FetchKeysURL X jwks_uri = Fail (Foreign m)
      | inr keys =>
          key_list X data keys /\
          FetchKeysURL X jwks_uri =
            match keys with
            | [] => Fail ErrBackendOauthJwksKeysNotFound
            | _ :: _ =>
                match first_invalid X keys with
                | Some err => Fail (ErrBackendOauthJwksInvalidKey err)
                | None => Return (imported X keys ∅)
                end
            end
      end end end end end end.
Proof.
  unfold FetchKeysURL.
  destruct (http_Get X jwks_uri) as [m | resp] eqn:Hget; simpl;
    [reflexivity |].
  destruct (ioutil_ReadAll X resp) as [m | respBody] eqn:Hread; simpl;
    [reflexivity |].
  destruct (json_Unmarshal_map X respBody) as [m | data] eqn:Hdata; simpl;
    [reflexivity |].
  split; [exists resp, respBody; auto |].
  destruct (data !! "keys") as [v|] eqn:Hkeys.
  - rewrite bool_decide_eq_true_2 by eauto. simpl.
    destruct (json_Marshal X (index data "keys")) as [m | jwksJSON] eqn:Hm;
      simpl; [reflexivity |].
    destruct (json_Unmarshal_keys X jwksJSON) as [m | keys] eqn:Hu; simpl;
      [reflexivity |].
    split; [split; [rewrite Hkeys; eauto | exists jwksJSON; auto] |].
    destruct keys as [| k keys]; [reflexivity |].
    change (length (k :: keys) <? 1)%nat with false. cbv iota.
    apply FetchKeysURL_range_imported.
  - rewrite bool_decide_eq_false_2; [reflexivity |].
    intros [? ?]. discriminate.
Qed.

Lemma document_unique (jwks_uri : string) (data data' : gmap string Value) :
  document X jwks_uri data -> document X jwks_uri data' -> data = data'.
Proof.
  intros (r & rb & ? & ? & ?) (r' & rb' & ? & ? & ?). congruence.
Qed.

Lemma key_list_unique (data : gmap string Value) (keys keys' : list (JwksKey X)) :
  key_list X data keys -> key_list X data keys' -> keys = keys'.
Proof.
  intros (_ & j & ? & ?) (_ & j' & ? & ?). congruence.
Qed.

(** How [FetchKeysURL] ends on a document with a key list. *)
Lemma FetchKeysURL_on_keys
    (jwks_uri : string) (data : gmap string Value) (keys : list (JwksKey X)) :
  document X jwks_uri data -> key_list X data keys ->
  FetchKeysURL X jwks_uri =
    match keys with
    | [] => Fail ErrBackendOauthJwksKeysNotFound
    | _ :: _ =>
        match first_invalid X keys with
        | Some err => Fail (ErrBackendOauthJwksInvalidKey err)
        | None => Return (imported X keys ∅)
        end
    end.
Proof.
  intros Hdoc Hkeys. pose proof (FetchKeysURL_cases jwks_uri) as Hc.
  pose proof Hdoc as (resp & respBody & Hget & Hread & Hdata).
  pose proof Hkeys as ([v Hv] & jwksJSON & Hm & Hu).
  rewrite Hget, Hread, Hdata, Hv, Hm, Hu in Hc. apply Hc.
Qed.

(** X5.  [FetchKeysURL] returns a store exactly when the document has a
    [keys] field that decodes to a list with at least one key, all of them
    valid; the store is then the one the keys give, inserted in the order of
    the list into an empty map. *)
Theorem FetchKeysURL_returns_iff
    (jwks_uri : string) (store : gmap string Value) :
  FetchKeysURL X jwks_uri = Return store <->
  exists data keys,
    document X jwks_uri data /\ key_list X data keys /\
    keys <> [] /\ first_invalid X keys = None /\
    store = imported X keys ∅.
Proof.
  split.
  - intros Hret. pose proof (FetchKeysURL_cases jwks_uri) as Hc.
    rewrite Hret in Hc.
    destruct (http_Get X jwks_uri) as [m | resp]; [discriminate |].
    destruct (ioutil_ReadAll X resp) as [m | respBody]; [discriminate |].
    destruct (json_Unmarshal_map X respBody) as [m | data]; [discriminate |].
    destruct Hc as [Hdoc Hc]. exists data.
    destruct (data !! "keys"); [| discriminate].
    destruct (json_Marshal X (index data "keys")) as [m | jwksJSON];
      [discriminate |].
    destruct (json_Unmarshal_keys X jwksJSON) as [m | keys]; [discriminate |].
    destruct Hc as [Hkeys Hc]. exists keys.
    destruct keys as [| k keys]; [discriminate |].
    destruct (first_invalid X (k :: keys)); [discriminate |].
    injection Hc as ->.
    split; [exact Hdoc | split; [exact Hkeys | split; [discriminate | auto]]].
  - intros (data & keys & Hdoc & Hkeys & Hne & Hvalid & ->).
    rewrite (FetchKeysURL_on_keys _ _ _ Hdoc Hkeys), Hvalid.
    destruct keys; [congruence | reflexivity].
Qed.

(** X6.  In a store [FetchKeysURL] returns, the entry under an identifier is
    the public key of the last key of the document's list that carries this
    identifier, and an identifier no key carries has no entry: of two keys
    with one identifier the later one stays. *)
Theorem FetchKeysURL_last_key_wins
    (jwks_uri : string) (data : gmap string Value)
    (keys : list (JwksKey X)) (store : gmap string Value) :
  document X jwks_uri data -> key_list X data keys ->
  FetchKeysURL X jwks_uri = Return store ->
  forall id, store !! id = GetPublicKey X <$> last (named X id keys).
Proof.
  intros Hdoc Hkeys Hret id.
  rewrite (FetchKeysURL_on_keys _ _ _ Hdoc Hkeys) in Hret.
  destruct keys as [| k keys]; [discriminate |].
  destruct (first_invalid X (k :: keys)); [discriminate |].
  assert (Hs : store = imported X (k :: keys) ∅) by congruence.
  rewrite Hs, imported_lookup.
  destruct (last (named X id (k :: keys))); reflexivity.
Qed.

(** X7.  A store [FetchKeysURL] returns is never empty, has at most as many
    entries as the document has keys, and has an entry under the identifier
    of every key of the document. *)
Theorem FetchKeysURL_store_size
    (jwks_uri : string) (data : gmap string Value)
    (keys : list (JwksKey X)) (store : gmap string Value) :
  document X jwks_uri data -> key_list X data keys ->
  FetchKeysURL X jwks_uri = Return store ->
  store <> ∅ /\ size store <= length keys /\
  forall k, k ∈ keys -> is_Some (store !! KeyID X (validated X k)).
Proof.
  intros Hdoc Hkeys Hret.
  rewrite (FetchKeysURL_on_keys _ _ _ Hdoc Hkeys) in Hret.
  destruct keys as [| k0 keys]; [discriminate |].
  destruct (first_invalid X (k0 :: keys)); [discriminate |].
  assert (Hs : store = imported X (k0 :: keys) ∅) by congruence.
  subst store. clear Hret.
  assert (Hall : forall k, k ∈ k0 :: keys ->
            is_Some (imported X (k0 :: keys) ∅ !! KeyID X (validated X k))).
  { intros k Hin. rewrite imported_lookup.
    destruct (last (named X (KeyID X (validated X k)) (k0 :: keys))) eqn:Hl;
      [eauto |].
    apply last_None in Hl. apply named_elem in Hin. rewrite Hl in Hin.
    inversion Hin. }
  split; [| split; [| exact Hall]].
  - intros Hempty. destruct (Hall k0) as [v Hv]; [left |].
    rewrite Hempty, lookup_empty in Hv. discriminate.
  - pose proof (imported_size (k0 :: keys) ∅) as Hs.
    rewrite map_size_empty in Hs. exact Hs.
Qed.

(** X8.  Import, then resolve.  With the store [FetchKeysURL] returns as the
    store of an RSA backend, a token with an RSA method gets the public key
    of the last key of the document that carries the identifier looked up
    (the token's [kid], or "0" when it has none); when no key of the document
    carries it the token is refused, with [ErrUnexpectedKID] when it names a
    [kid] and [ErrNoRSAKeyFound] otherwise. *)
Theorem import_then_resolve
    (jwks_uri : string) (data : gmap string Value)
    (keys : list (JwksKey X)) (store : gmap string Value) (token : Token) :
  document X jwks_uri data -> key_list X data keys ->
  FetchKeysURL X jwks_uri = Return store ->
  assert_SigningMethodRSA (Method token) = true ->
  (forall k p,
     last (named X (looked_up token) keys) = Some k ->
     GetPublicKey X k = VRSAPublicKey p ->
     RSAKeyTokenBackend_ProvideKey (NewRSAKeyTokenBackend store) token
       = Return (VRSAPublicKey p)) /\
  (named X (looked_up token) keys = [] ->
     RSAKeyTokenBackend_ProvideKey (NewRSAKeyTokenBackend store) token
       = Fail (match assert_string (index (Header token) "kid") with
               | Some _ => ErrUnexpectedKID
               | None => ErrNoRSAKeyFound
               end)).
Proof.
  intros Hdoc Hkeys Hret HRSA.
  rewrite (FetchKeysURL_on_keys _ _ _ Hdoc Hkeys) in Hret.
  destruct keys as [| k0 keys]; [discriminate |].
  destruct (first_invalid X (k0 :: keys)); [discriminate |].
  assert (Hs : store = imported X (k0 :: keys) ∅) by congruence.
  subst store. clear Hret.
  rewrite (ProvideKey_RSA_lookup _ token HRSA).
  unfold NewRSAKeyTokenBackend. cbn [secrets].
  rewrite imported_lookup. split.
  - intros k p -> Hp. simpl. rewrite Hp. reflexivity.
  - intros ->. simpl. rewrite lookup_empty. reflexivity.
Qed.

#[local] Ltac no_document Hno :=
  let d := fresh in
  let Hx := fresh in
  intros (d & Hx); exfalso; apply (Hno d);
  repeat match type of Hx with
         | exists _, _ => destruct Hx as (? & Hx)
         | _ /\ _ => destruct Hx as (Hx & _)
         end;
  exact Hx.

(** X9.  The errors of [FetchKeysURL] name their cause exactly.  It fails
    with [ErrBackendOauthJwksInvalidKey] on a cause exactly when the key list
    of the document has a first invalid key with this cause; with
    [ErrBackendOauthJwksKeysNotFound] exactly when the key list is empty; with
    [ErrBackendOauthJwksResponseKeysNotFound] exactly when the document has no
    [keys] field; and with [ErrBackendOauthJwksKeysParseFailed] exactly when
    the [keys] field cannot be encoded again. *)
Theorem FetchKeysURL_error_causes (jwks_uri : string) :
  (forall cause,
     FetchKeysURL X jwks_uri = Fail (ErrBackendOauthJwksInvalidKey cause) <->
     exists data keys,
       document X jwks_uri data /\ key_list X data keys /\
       first_invalid X keys = Some cause) /\
  (FetchKeysURL X jwks_uri = Fail ErrBackendOauthJwksKeysNotFound <->
     exists data, document X jwks_uri data /\ key_list X data []) /\
  (FetchKeysURL X jwks_uri = Fail ErrBackendOauthJwksResponseKeysNotFound <->
     exists data, document X jwks_uri data /\ data !! "keys" = None) /\
  (forall m,
     FetchKeysURL X jwks_uri = Fail (ErrBackendOauthJwksKeysParseFailed m) <->
     exists data,
       document X jwks_uri data /\ is_Some (data !! "keys") /\
       json_Marshal X (index data "keys") = inl m).
Proof.
  pose proof (FetchKeysURL_cases jwks_uri) as Hc.
  destruct (http_Get X jwks_uri) as [m0 | resp] eqn:Hget.
  { assert (Hno : forall data, ~ document X jwks_uri data)
      by (intros d (? & ? & ? & ? & ?); congruence).
    rewrite Hc. repeat split; try discriminate; no_document Hno. }
  destruct (ioutil_ReadAll X resp) as [m0 | respBody] eqn:Hread.
  { assert (Hno : forall data, ~ document X jwks_uri data)
      by (intros d (? & ? & ? & ? & ?); congruence).
    rewrite Hc. repeat split; try discriminate; no_document Hno. }
  destruct (json_Unmarshal_map X respBody) as [m0 | data] eqn:Hdata.
  { assert (Hno : forall data, ~ document X jwks_uri data)
      by (intros d (? & ? & ? & ? & ?); congruence).
    rewrite Hc. repeat split; try discriminate; no_document Hno. }
  destruct Hc as [Hdoc Hc].
  assert (Hsame : forall data', document X jwks_uri data' -> data' = data)
    by (intros data' Hd; exact (document_unique _ _ _ Hd Hdoc)).
  clear Hget Hread Hdata.
  destruct (data !! "keys") as [v|] eqn:Hv.
  2: { rewrite Hc. repeat split; try discriminate; eauto.
       - intros (d & keys & Hd & ([? ?] & _) & _).
         apply Hsame in Hd. subst d. congruence.
       - intros (d & Hd & ([? ?] & _)).
         apply Hsame in Hd. subst d. congruence.
       - intros (d & Hd & [? ?] & _).
         apply Hsame in Hd. subst d. congruence. }
  destruct (json_Marshal X (index data "keys")) as [m0 | jwksJSON] eqn:Hm.
  { rewrite Hc. repeat split; try discriminate.
    - intros (d & keys & Hd & (_ & ? & ? & _) & _).
      apply Hsame in Hd. subst d. congruence.
    - intros (d & Hd & (_ & ? & ? & _)).
      apply Hsame in Hd. subst d. congruence.
    - intros (d & Hd & ?). apply Hsame in Hd. subst d. congruence.
    - intros [= ->]. exists data. rewrite Hv. eauto.
    - intros (d & Hd & _ & ?). apply Hsame in Hd. subst d. congruence. }
  destruct (json_Unmarshal_keys X jwksJSON) as [m0 | keys] eqn:Hu.
  { rewrite Hc. repeat split; try discriminate.
    - intros (d & keys & Hd & (_ & ? & ? & ?) & _).
      apply Hsame in Hd. subst d. congruence.
    - intros (d & Hd & (_ & ? & ? & ?)).
      apply Hsame in Hd. subst d. congruence.
    - intros (d & Hd & ?). apply Hsame in Hd. subst d. congruence.
    - intros (d & Hd & _ & ?). apply Hsame in Hd. subst d. congruence. }
  destruct Hc as [Hkeys Hc].
  assert (Hlist : forall d keys',
            document X jwks_uri d -> key_list X d keys' -> keys' = keys).
  { intros d keys' Hd Hk. apply Hsame in Hd. subst d.
    exact (key_list_unique _ _ _ Hk Hkeys). }
  rewrite Hc. clear Hc. repeat split.
  - destruct keys as [| k keys]; [discriminate |].
    destruct (first_invalid X (k :: keys)) eqn:Hf; [| discriminate].
    intros [= ->]. eauto 6.
  - intros (d & keys' & Hd & Hk & Hf).
    rewrite (Hlist _ _ Hd Hk) in Hf. rewrite Hf.
    destruct keys; [discriminate | reflexivity].
  - destruct keys as [| k keys]; [eauto |].
    destruct (first_invalid X (k :: keys)); discriminate.
  - intros (d & Hd & Hk). rewrite <- (Hlist _ _ Hd Hk). reflexivity.
  - destruct keys as [| k keys]; [discriminate |].
    destruct (first_invalid X (k :: keys)); discriminate.
  - intros (d & Hd & ?). apply Hsame in Hd. subst d. congruence.
  - destruct keys as [| k keys]; [discriminate |].
    destruct (first_invalid X (k :: keys)); discriminate.
  - intros (d & Hd & _ & ?). apply Hsame in Hd. subst d. congruence.
Qed.

End KeySetImportFurther.

Section KeySetImportFurtherWitnesses.
Import Backends FixedKeySet Samples.

Lemma rotating_document : document rotating "https://idp/jwks" (key_set rotated).
Proof. exists tt, []. repeat split. Qed.

Lemma rotating_key_list : key_list rotating (key_set rotated) rotated.
Proof. split; [vm_compute; eauto | exists []; split; reflexivity]. Qed.

(** A witness of X6: under "a" the store holds the key of [good3], the later
    of the two keys with this identifier. *)
Lemma FetchKeysURL_last_key_wins_witness :
  imported rotating rotated ∅ !! "a" = Some (VRSAPublicKey (Some pub3)).
Proof.
  exact (FetchKeysURL_last_key_wins rotating "https://idp/jwks" (key_set rotated)
           rotated (imported rotating rotated ∅)
           rotating_document rotating_key_list eq_refl "a").
Defined.

(** A witness of X7: three keys, two identifiers. *)
Lemma FetchKeysURL_store_size_witness :
  imported rotating rotated ∅ <> ∅ /\
  size (imported rotating rotated ∅) <= 3.
Proof.
  destruct (FetchKeysURL_store_size rotating "https://idp/jwks" (key_set rotated)
              rotated (imported rotating rotated ∅)
              rotating_document rotating_key_list eq_refl)
    as (Hne & Hsize & _).
  split; [exact Hne | exact Hsize].
Defined.

(** A witness of X8: a token that names "a" gets the key of [good3]. *)
Lemma import_then_resolve_witness :
  RSAKeyTokenBackend_ProvideKey
    (NewRSAKeyTokenBackend (imported rotating rotated ∅)) (rs256 (Some "a"))
  = Return (VRSAPublicKey (Some pub3)).
Proof.
  exact (proj1 (import_then_resolve rotating "https://idp/jwks"
                  (key_set rotated) rotated (imported rotating rotated ∅)
                  (rs256 (Some "a"))
                  rotating_document rotating_key_list eq_refl eq_refl)
           good3 (Some pub3) eq_refl eq_refl).
Defined.

End KeySetImportFurtherWitnesses.

(** ** Validator options, further *)

Section OptionsFurther.
Import Config.

(** What [Clone] returns on an allocated struct. *)
Lemma Clone_allocated (opts : loc) (h : heap) (o : TokenValidatorOptions) :
  structs h !! opts = Some o ->
  Clone opts h =
    Some (fresh (dom (structs h)),
          {| structs :=
               <[fresh (dom (structs h)) :=
                   {| ValidateSourceAddress := ValidateSourceAddress o;
                      SourceAddress := "";
                      ValidateBearerHeader := ValidateBearerHeader o;
                      ValidateMethodPath := ValidateMethodPath o;
                      ValidateAccessListPathClaim := ValidateAccessListPathClaim o;
                      ValidateAllowMatchAll := ValidateAllowMatchAll o;
                      Metadata := Some (fresh (dom (maps h)));
                      Replacer := None;
                      Logger := Logger o |}]> (structs h);
             maps := <[fresh (dom (maps h)) := ∅]> (maps h) |}).
Proof. intros Ho. unfold Clone. rewrite Ho. reflexivity. Qed.

(** X10.  [Clone] does not copy everything but the metadata: the clone has an
    empty source address and no replacer, whatever the original has, and it
    shares the original's logger.  The call panics exactly when the pointer
    holds no struct. *)
Theorem Clone_drops_address_and_replacer (opts : loc) (h : heap) :
  (Clone opts h = None <-> structs h !! opts = None) /\
  (forall c h', Clone opts h = Some (c, h') ->
     exists o o',
       structs h !! opts = Some o /\ structs h' !! c = Some o' /\
       SourceAddress o' = "" /\ Replacer o' = None /\ Logger o' = Logger o).
Proof.
  destruct (structs h !! opts) as [o|] eqn:Ho.
  - rewrite (Clone_allocated _ _ _ Ho). split.
    + split; discriminate.
    + intros c h' [= <- <-]. exists o. eexists. split; [reflexivity |].
      split; [apply lookup_insert_eq |]. simpl. auto.
  - unfold Clone. rewrite Ho. simpl. split.
    + split; reflexivity.
    + discriminate.
Qed.

(** X11.  Two clones of one struct are two structs with the same five flags
    and with two metadata maps: an assignment through the metadata of the
    first clone succeeds and is not seen through the metadata of the second,
    nor through any map allocated before. *)
Theorem Clone_twice_independent
    (opts : loc) (h : heap) (o : TokenValidatorOptions) :
  structs h !! opts = Some o ->
  exists (c1 c2 m1 m2 : loc) (h1 h2 : heap) (o1 o2 : TokenValidatorOptions),
    Clone opts h = Some (c1, h1) /\ Clone opts h1 = Some (c2, h2) /\
    c1 <> c2 /\ c1 <> opts /\ c2 <> opts /\
    structs h2 !! c1 = Some o1 /\ structs h2 !! c2 = Some o2 /\
    Metadata o1 = Some m1 /\ Metadata o2 = Some m2 /\ m1 <> m2 /\
    ValidateSourceAddress o1 = ValidateSourceAddress o2 /\
    ValidateBearerHeader o1 = ValidateBearerHeader o2 /\
    ValidateMethodPath o1 = ValidateMethodPath o2 /\
    ValidateAccessListPathClaim o1 = ValidateAccessListPathClaim o2 /\
    ValidateAllowMatchAll o1 = ValidateAllowMatchAll o2 /\
    forall k v, exists h3,
      map_assign (Metadata o1) k v h2 = Some h3 /\
      map_lookup (Metadata o1) k h3 = Some v /\
      map_lookup (Metadata o2) k h3 = None /\
      forall l, l <> m1 -> maps h3 !! l = maps h !! l \/ l = m2.
Proof.
  intros Ho.
  set (c1 := fresh (dom (structs h))).
  set (m1 := fresh (dom (maps h))).
  assert (Hc1 : structs h !! c1 = None) by apply fresh_unused.
  assert (Hm1 : maps h !! m1 = None) by apply fresh_unused.
  pose proof (Clone_allocated _ _ _ Ho) as E1. fold c1 m1 in E1.
  match type of E1 with _ = Some (_, ?x) => set (h1 := x) in * end.
  assert (Hc1o : c1 <> opts) by congruence.
  assert (Ho1 : structs h1 !! opts = Some o).
  { simpl. rewrite lookup_insert_ne by assumption. assumption. }
  set (c2 := fresh (dom (structs h1))).
  set (m2 := fresh (dom (maps h1))).
  assert (Hc2 : structs h1 !! c2 = None) by apply fresh_unused.
  assert (Hm2 : maps h1 !! m2 = None) by apply fresh_unused.
  pose proof (Clone_allocated _ _ _ Ho1) as E2. fold c2 m2 in E2.
  match type of E2 with _ = Some (_, ?x) => set (h2 := x) in * end.
  assert (Hc12 : c1 <> c2).
  { intros Heq. rewrite <- Heq in Hc2. simpl in Hc2.
    rewrite lookup_insert_eq in Hc2. discriminate. }
  assert (Hm12 : m1 <> m2).
  { intros Heq. rewrite <- Heq in Hm2. simpl in Hm2.
    rewrite lookup_insert_eq in Hm2. discriminate. }
  assert (Hc2o : c2 <> opts) by congruence.
  exists c1, c2, m1, m2, h1, h2. do 2 eexists.
  split; [exact E1 |]. split; [exact E2 |].
  do 3 (split; [assumption |]).
  split.
  { simpl. rewrite lookup_insert_ne by congruence. apply lookup_insert_eq. }
  split; [simpl; apply lookup_insert_eq |].
  simpl. do 2 (split; [reflexivity |]). split; [assumption |].
  do 5 (split; [reflexivity |]).
  intros k v. eexists. split.
  { unfold map_assign. simpl. rewrite lookup_insert_ne by congruence.
    rewrite lookup_insert_eq. simpl. reflexivity. }
  unfold map_lookup. simpl. split; [| split].
  - rewrite lookup_insert_eq. simpl. apply lookup_insert_eq.
  - rewrite lookup_insert_ne by assumption. rewrite lookup_insert_eq.
    reflexivity.
  - intros l Hl. destruct (decide (l = m2)) as [-> | Hl2]; [right; reflexivity |].
    left. rewrite !lookup_insert_ne by congruence. reflexivity.
Qed.

Lemma Clone_twice_independent_witness :
  exists (c1 c2 m1 m2 : loc) (h1 h2 : heap) (o1 o2 : TokenValidatorOptions),
    Clone 1%positive Samples.heap0 = Some (c1, h1) /\
    Clone 1%positive h1 = Some (c2, h2) /\
    c1 <> c2 /\ c1 <> 1%positive /\ c2 <> 1%positive /\
    structs h2 !! c1 = Some o1 /\ structs h2 !! c2 = Some o2 /\
    Metadata o1 = Some m1 /\ Metadata o2 = Some m2 /\ m1 <> m2 /\
    ValidateSourceAddress o1 = ValidateSourceAddress o2 /\
    ValidateBearerHeader o1 = ValidateBearerHeader o2 /\
    ValidateMethodPath o1 = ValidateMethodPath o2 /\
    ValidateAccessListPathClaim o1 = ValidateAccessListPathClaim o2 /\
    ValidateAllowMatchAll o1 = ValidateAllowMatchAll o2 /\
    forall k v, exists h3,
      map_assign (Metadata o1) k v h2 = Some h3 /\
      map_lookup (Metadata o1) k h3 = Some v /\
      map_lookup (Metadata o2) k h3 = None /\
      forall l, l <> m1 -> maps h3 !! l = maps Samples.heap0 !! l \/ l = m2.
Proof.
  exact (Clone_twice_independent 1%positive Samples.heap0 Samples.options0
           eq_refl).
Defined.

(** X12.  That every metadata reference of a struct is an allocated map holds
    of the empty heap and is kept by [NewTokenValidatorOptions], by [Clone]
    and by an assignment through a map reference. *)
Theorem heap_closed_kept (h : heap) :
  heap_closed {| structs := ∅; maps := ∅ |} /\
  (heap_closed h ->
     heap_closed (snd (NewTokenValidatorOptions h)) /\
     (forall opts c h', Clone opts h = Some (c, h') -> heap_closed h') /\
     (forall m k v h', map_assign m k v h = Some h' -> heap_closed h')).
Proof.
  split.
  { intros l o m Hl. simpl in Hl. rewrite lookup_empty in Hl. discriminate. }
  intros Hclosed. split; [| split].
  - intros l o m. simpl. intros Hl Hm.
    destruct (decide (l = fresh (dom (structs h)))) as [-> | Hne].
    + rewrite lookup_insert_eq in Hl. injection Hl as <-. discriminate.
    + rewrite lookup_insert_ne in Hl by congruence. eapply Hclosed; eassumption.
  - intros opts c h' Hclone.
    destruct (structs h !! opts) as [o|] eqn:Ho.
    2: { unfold Clone in Hclone. rewrite Ho in Hclone. discriminate. }
    rewrite (Clone_allocated _ _ _ Ho) in Hclone. injection Hclone as <- <-.
    intros l o' m. simpl. intros Hl Hm.
    destruct (decide (l = fresh (dom (structs h)))) as [-> | Hne].
    + rewrite lookup_insert_eq in Hl. injection Hl as <-. simpl in Hm.
      injection Hm as <-. rewrite lookup_insert_eq. eauto.
    + rewrite lookup_insert_ne in Hl by congruence.
      apply lookup_insert_is_Some'. right. eapply Hclosed; eassumption.
  - intros m k v h'. unfold map_assign.
    destruct m as [l0|]; [simpl | discriminate].
    destruct (maps h !! l0) as [content|] eqn:Hl0; [simpl | discriminate].
    intros [= <-]. intros l o m. simpl. intros Hl Hm.
    apply lookup_insert_is_Some'. right. eapply Hclosed; eassumption.
Qed.

Lemma heap_closed_kept_witness :
  heap_closed (snd (NewTokenValidatorOptions Samples.heap0)).
Proof.
  refine (proj1 (proj2 (heap_closed_kept Samples.heap0) _)).
  intros l o m Hl Hm. simpl in Hl.
  apply lookup_singleton_Some in Hl as [<- <-]. simpl in Hm.
  injection Hm as <-. simpl. rewrite lookup_singleton_eq. eauto.
Defined.

(** X13.  The struct [NewTokenValidatorOptions] returns is a new one, with
    every flag off and with the nil map as metadata: an assignment through
    its metadata panics, whereas its clone has a map that takes one. *)
Theorem NewTokenValidatorOptions_nil_metadata (h : heap) :
  let '(l, h') := NewTokenValidatorOptions h in
  structs h !! l = None /\ structs h' !! l = Some new_options /\
  maps h' = maps h /\
  (forall l', l' <> l -> structs h' !! l' = structs h !! l') /\
  (forall k v, map_assign (Metadata new_options) k v h' = None) /\
  (forall k, map_lookup (Metadata new_options) k h' = None) /\
  exists c h'' o',
    Clone l h' = Some (c, h'') /\ structs h'' !! c = Some o' /\
    forall k v, is_Some (map_assign (Metadata o') k v h'').
Proof.
  unfold NewTokenValidatorOptions, alloc_struct.
  set (l := fresh (dom (structs h))).
  split; [apply fresh_unused |].
  split; [apply lookup_insert_eq |].
  split; [reflexivity |].
  split; [intros l' Hl'; apply lookup_insert_ne; congruence |].
  split; [reflexivity |]. split; [reflexivity |].
  do 3 eexists. split; [| split].
  - apply Clone_allocated. apply lookup_insert_eq.
  - apply lookup_insert_eq.
  - intros k v. unfold map_assign. simpl. rewrite lookup_insert_eq. simpl.
    eauto.
Qed.

End OptionsFurther.

(** ** The provider the parser builds *)

Section ParserFurther.
Import Caddyfile.
Context {H C : Type} `{!Helper H} `{!TokenConfigJSON C} `{!AccessListMethods}.

(** *** The trace is the run *)

Lemma chain_app (t1 t2 : list (string * H)) (st st1 st' : state C) :
  chain t1 st st1 -> chain t2 st1 st' -> chain (t1 ++ t2) st st'.
Proof.
  revert st. induction t1 as [| d t1 IH]; intros st; simpl.
  - intros ->. auto.
  - intros (st2 & Hd & Hc) Hc2. exists st2. split; [exact Hd | eauto].
Qed.

Lemma root_block_chain (fuel : nat) (n : Z) :
  forall (st st' : state C) (h h' : H) trace,
    root_block fuel n st h = Some (Return (st', h', trace)) ->
    chain trace st st'.
Proof.
  induction fuel as [| fuel IH]; intros st st' h h' trace; [discriminate |].
  simpl. destruct (NextBlock n h) as [[] h1].
  - destruct (root_directive fuel (Val h1) st h1) as [[[st1 h2] | |] |] eqn:Hd;
      try discriminate. simpl.
    destruct (root_block fuel n st1 h2) as [[[[st2 h3] trace2] | |] |] eqn:Hb;
      try discriminate. simpl.
    unfold ret. intros. simplify_eq. simpl.
    exists st1. split; [exists fuel, h2; exact Hd | eapply IH; exact Hb].
  - unfold ret. intros. simplify_eq. reflexivity.
Qed.

(** The state the loops return is the one the dispatched directives give, one
    after the other, from the state the loops started in. *)
Lemma segments_chain (fuel : nat) :
  forall (st st' : state C) (h h' : H) trace,
    segments fuel st h = Some (Return (st', h', trace)) ->
    chain trace st st'.
Proof.
  induction fuel as [| fuel IH]; intros st st' h h' trace; [discriminate |].
  simpl. destruct (Next h) as [[] h1].
  - destruct (root_block fuel (Nesting h1) st h1)
      as [[[[st1 h2] trace1] | |] |] eqn:Hb; try discriminate. simpl.
    destruct (segments fuel st1 h2) as [[[[st2 h3] trace2] | |] |] eqn:Hs;
      try discriminate. simpl.
    unfold ret. intros. simplify_eq.
    eapply chain_app; [eapply root_block_chain; exact Hb | eapply IH; exact Hs].
  - unfold ret. intros. simplify_eq. reflexivity.
Qed.

(** A quantity every directive updates by [upd] is, at the end, the fold of
    [upd] over the trace. *)
Lemma chain_fold {A : Type} (f : state C -> A) (upd : A -> string * H -> A) :
  (forall d st st', dispatched d st st' -> f st' = upd (f st) d) ->
  forall trace st st',
    chain trace st st' -> f st' = foldl upd (f st) trace.
Proof.
  intros Hupd. induction trace as [| d trace IH]; intros st st'; simpl.
  - intros ->. reflexivity.
  - intros (st1 & Hd & Hc). rewrite (IH _ _ Hc), (Hupd _ _ _ Hd). reflexivity.
Qed.

Lemma foldl_orb (on : string * H -> bool) (trace : list (string * H)) (b : bool) :
  foldl (fun b d => b || on d) b trace = b || existsb on trace.
Proof.
  revert b. induction trace as [| d trace IH]; intros b; simpl.
  - rewrite orb_false_r. reflexivity.
  - rewrite IH, orb_assoc. reflexivity.
Qed.

Lemma foldl_last_set (get : string * H -> option string)
    (trace : list (string * H)) (start : string) :
  foldl (fun s d => default s (get d)) start trace = last_set get start trace.
Proof.
  unfold last_set. revert start.
  induction trace as [| d trace IH]; intros start.
  - reflexivity.
  - assert (Ho : omap get (d :: trace) =
                 match get d with
                 | Some s => s :: omap get trace
                 | None => omap get trace
                 end) by reflexivity.
    rewrite Ho. cbn [foldl]. rewrite IH.
    destruct (get d) as [s|]; [| reflexivity]. cbn [default].
    destruct (omap get trace) as [| s' l]; [reflexivity |].
    rewrite last_cons_cons. destruct (last (s' :: l)) eqn:Hl; [reflexivity |].
    apply last_None in Hl. discriminate.
Qed.

(** What [finish] returns is the provider of the state, but for the access
    list. *)
Lemma finish_fields (st : state C) (h : H) (provider : AuthProvider C) :
  finish st h = Return provider ->
  Context_ (p st) <> "" /\
  provider =
    set_AccessList
      (AccessList (p st) ++ if defaultDenyACL st then [] else [catch_all])
      (p st).
Proof.
  unfold finish. destruct (Context_ (p st) =? "")%string eqn:Hc;
    [discriminate |].
  apply String.eqb_neq in Hc. split; [exact Hc |].
  destruct (defaultDenyACL st); simpl in *; simplify_eq.
  - rewrite app_nil_r. destruct (p st). reflexivity.
  - reflexivity.
Qed.

(** A provider the parser returns comes from a run of the loops. *)
Lemma parser_returns_run (fuel : nat) (h : H) (provider : AuthProvider C) :
  parseCaddyfileTokenValidator fuel h = Some (Return provider) ->
  exists st h' trace,
    segments fuel (mkState initial_provider true) h
      = Some (Return (st, h', trace)) /\
    chain trace (mkState initial_provider true) st /\
    finish st h' = Return provider.
Proof.
  unfold parseCaddyfileTokenValidator.
  destruct (segments fuel (mkState initial_provider true) h)
    as [[[[st h'] trace] | |] |] eqn:Hseg; try discriminate.
  simpl. intros [= Hfin]. exists st, h', trace.
  split; [reflexivity |]. split; [| exact Hfin].
  eapply segments_chain. exact Hseg.
Qed.

(** *** What one directive does *)

(** The loop over the backends of [trusted_tokens] appends to the trusted
    tokens and changes nothing else. *)
Lemma trusted_tokens_loop_frame (fuel : nat) (n : Z) :
  forall (p p' : AuthProvider C) (h h' : H),
    trusted_tokens_loop fuel n p h = Some (Return (p', h')) ->
    exists new, p' = set_TrustedTokens (TrustedTokens p ++ new) p.
Proof.
  induction fuel as [| fuel IH]; intros p p' h h'; [discriminate |]. simpl.
  destruct (NextBlock n h) as [[] h1].
  - destruct (tokenConfigProps_loop _ _ _ _ _) as [[[props h2] | |] |];
      try discriminate. simpl.
    destruct (json_Marshal props); [discriminate |].
    destruct (json_Unmarshal _) as [| tokenConfig]; [discriminate |].
    intros Hr. apply IH in Hr as [new ->]. exists (tokenConfig :: new).
    simpl. rewrite <- app_assoc. reflexivity.
  - intros [= <- <-]. exists []. rewrite app_nil_r. destruct p. reflexivity.
Qed.

(** The loop over the arguments of a rule changes of the provider the switch
    of method and path validation only, which it turns on when an argument
    that is no keyword follows a keyword. *)
Lemma acl_args_provider (d : string) (args : list string) :
  forall i entry mode (p : AuthProvider C) entry' mode' p',
    i <> 0 ->
    mode = "roles" \/ mode = "method" \/ mode = "path" ->
    acl_args (H:=H) d i args entry mode p = Return (entry', mode', p') ->
    if after_keyword (negb (mode =? "roles")%string) args
    then p' = set_ValidateMethodPath true p
    else p' = p.
Proof.
  induction args as [| arg args IH]; intros i entry mode p entry' mode' p' Hi Hm.
  - simpl. intros [= <- <- <-]. reflexivity.
  - simpl. apply Nat.eqb_neq in Hi. rewrite Hi. unfold keyword.
    destruct (arg =? "with")%string.
    { simpl. intros Hr. apply IH in Hr; [exact Hr | lia | auto]. }
    destruct (arg =? "to")%string.
    { simpl. intros Hr. apply IH in Hr; [exact Hr | lia | auto]. }
    simpl. destruct Hm as [-> | [-> | ->]]; simpl.
    + destruct (AddValue arg entry); [discriminate |].
      intros Hr. apply IH in Hr; [exact Hr | lia | auto].
    + destruct (AddMethod arg entry); [discriminate |].
      intros Hr. apply IH in Hr; [| lia | auto]. simpl in Hr.
      destruct (after_keyword true args); exact Hr.
    + destruct (negb (Path entry =? "")%string); [discriminate |].
      destruct (SetPath arg entry); [discriminate |].
      intros Hr. apply IH in Hr; [| lia | auto]. simpl in Hr.
      destruct (after_keyword true args); exact Hr.
Qed.

(** The rule the loop leaves does not depend on the provider. *)
Lemma acl_args_rule (d : string) (args : list string) :
  forall i entry mode (p q : AuthProvider C) entry' mode' p',
    acl_args (H:=H) d i args entry mode p = Return (entry', mode', p') ->
    exists q', acl_args (H:=H) d i args entry mode q = Return (entry', mode', q').
Proof.
  induction args as [| arg args IH]; intros i entry mode p q entry' mode' p'.
  - simpl. intros [= <- <- <-]. eauto.
  - simpl. repeat case_match; try discriminate; intros Hr; eapply IH; exact Hr.
Qed.

(** The first argument is the claim. *)
Lemma acl_args_claim (d arg : string) (args : list string)
    (entry : AccessListEntry) (mode : string) (p : AuthProvider C) :
  acl_args (H:=H) d 0 (arg :: args) entry mode p =
    match SetClaim arg entry with
    | inl err =>
        Fail (Errorf "%s argument claim key %s error: %s"
                [S_ d; S_ arg; E_ err])
    | inr entry => acl_args d 1 args entry mode p
    end.
Proof. reflexivity. Qed.

(** An accepted [allow] or [deny]: the provider it leaves. *)
Lemma acl_directive_provider (d : string) (args : list string)
    (p p' : AuthProvider C) :
  acl_directive (H:=H) d args p = Return p' ->
  exists entry,
    (match acl_args (H:=H) (C:=C) d 0 args (new_entry d) "roles"
             initial_provider with
     | Return (entry, _, _) => Some entry
     | _ => None
     end) = Some entry /\
    p' = set_AccessList (AccessList p ++ [entry])
           (if after_keyword false (tail args)
            then set_ValidateMethodPath true p else p).
Proof.
  unfold acl_directive. destruct args as [| arg0 [| arg1 args]]; try discriminate.
  change (length (arg0 :: arg1 :: args) =? 0)%nat with false.
  change (length (arg0 :: arg1 :: args) =? 1)%nat with false. cbv iota zeta.
  fold (new_entry d).
  destruct (acl_args d 0 (arg0 :: arg1 :: args) (new_entry d) "roles" p)
    as [[[entry mode] p1]| |] eqn:Hloop; try discriminate.
  destruct (acl_args_rule _ _ _ _ _ _ initial_provider _ _ _ Hloop)
    as [q' Hq].
  unfold mbind, outcome_bind. cbv iota beta. intros [= <-]. exists entry. split.
  - rewrite Hq. reflexivity.
  - pose proof (acl_args_AccessList _ _ _ _ _ _ _ _ _ Hloop) as HA.
    rewrite HA. rewrite acl_args_claim in Hloop.
    destruct (SetClaim arg0 (new_entry d)); [discriminate |].
    apply acl_args_provider in Hloop; [| lia | auto].
    change (tail (arg0 :: arg1 :: args)) with (arg1 :: args).
    change (negb ("roles" =? "roles")%string) with false in Hloop.
    destruct (after_keyword false (arg1 :: args)); rewrite Hloop; reflexivity.
Qed.

#[local] Ltac known E := apply String.eqb_eq in E as ->; simpl.

#[local] Ltac field :=
  first
    [ discriminate
    | reflexivity
    | assumption
    | solve [eauto]
    | solve [exists []; rewrite ?app_nil_r; split; [reflexivity | auto]]
    | solve [eexists; split; [reflexivity | intros; discriminate]]
    | solve [repeat first [apply list_elem_of_here | apply list_elem_of_further]]
    | solve [intros; discriminate] ].

#[local] Ltac settled :=
  repeat case_match; unfold ret, fail in *; intros; simpl in *; simplify_eq;
  simpl;
  repeat match goal with
         | Hx : _ = true |- _ => rewrite Hx
         | Hx : _ = false |- _ => rewrite Hx
         | Hx : _ = Some _ |- _ => rewrite Hx
         end;
  simpl; rewrite ?orb_false_r, ?orb_true_r, ?app_nil_r;
  repeat split; field.

(** What a dispatched directive leaves of each field of the provider. *)
Lemma dispatched_effect (d : string * H) (st st' : state C) :
  dispatched d st st' ->
  PrimaryInstance (p st') = PrimaryInstance (p st) || turns_on_primary d /\
  AuthRedirectQueryDisabled (p st')
    = AuthRedirectQueryDisabled (p st) || is_directive "disable" d /\
  ValidateAccessListPathClaim (p st')
    = ValidateAccessListPathClaim (p st) || is_directive "validate" d /\
  PassClaimsWithHeaders (p st')
    = PassClaimsWithHeaders (p st) || is_directive "enable" d /\
  ValidateMethodPath (p st')
    = ValidateMethodPath (p st) || (is_directive "validate" d || scoped d) /\
  Context_ (p st') = default (Context_ (p st)) (context_of d) /\
  AuthURLPath (p st') = default (AuthURLPath (p st)) (auth_url_of d) /\
  ForbiddenURL (p st') = default (ForbiddenURL (p st)) (forbidden_of d) /\
  TokenValidatorOptions (p st')
    = (if is_directive "option" d
       then Some (Config.set_ValidateBearerHeader true
                    (default Config.new_options (TokenValidatorOptions (p st))))
       else TokenValidatorOptions (p st)) /\
  (exists new,
     TrustedTokens (p st') = (TrustedTokens (p st) ++ new)%list /\
     (is_directive "trusted_tokens" d = false -> new = [])) /\
  AccessList (p st')
    = (AccessList (p st) ++
       if is_acl d then option_list (rule_of (C:=C) d) else [])%list /\
  (is_acl d = true -> is_Some (rule_of (C:=C) d)) /\
  fst d ∈ directives.
Proof.
  destruct d as [d h]. intros (fuel & h' & Hr). revert Hr.
  unfold turns_on_primary, scoped, context_of, auth_url_of, forbidden_of,
    is_acl, is_directive, args_of, arg_of, directives.
  cbn [fst snd].
  destruct (d =? "allow")%string eqn:Ea;
    [| destruct (d =? "deny")%string eqn:Ed].
  1, 2: (intros Hr;
    assert (Hd : d = "allow" \/ d = "deny")
      by (first [left; apply String.eqb_eq; assumption
                | right; apply String.eqb_eq; assumption]);
    destruct (RemainingArgs h) as [args h1] eqn:Hargs;
    rewrite (root_directive_acl fuel d st h h1 args Hd Hargs) in Hr;
    destruct (acl_directive d args (p st)) as [p1 | |] eqn:Hacl;
    try discriminate; unfold ret in Hr; simplify_eq;
    apply acl_directive_provider in Hacl as (entry & Hrule & ->);
    unfold rule_of, args_of; cbn [fst snd]; rewrite ?Hargs; cbn [fst snd];
    rewrite Hrule;
    destruct Hd as [-> | ->]; try discriminate;
    destruct (after_keyword false (tail args)); simpl;
    rewrite ?orb_false_r, ?orb_true_r, ?app_nil_r;
    repeat split; field).
  unfold root_directive. cbn [orb andb]. cbv zeta.
  destruct (d =? "primary")%string eqn:E; [known E; settled |].
  clear E.
  destruct (d =? "context")%string eqn:E; [known E; settled |].
  clear E.
  destruct (d =? "auth_url")%string eqn:E; [known E; settled |].
  clear E.
  destruct (d =? "trusted_tokens")%string eqn:E.
  { known E.
    destruct (trusted_tokens_loop _ _ _ _) as [[[p1 h1] | |] |] eqn:Hloop;
      simpl; try discriminate.
    apply trusted_tokens_loop_frame in Hloop as [new ->].
    unfold ret. intros. simplify_eq. simpl.
    rewrite ?orb_false_r, ?app_nil_r. repeat split; field. }
  clear E. rewrite Ea, Ed. cbn [orb].
  destruct (d =? "disable")%string eqn:E; [known E; settled |].
  clear E.
  destruct (d =? "validate")%string eqn:E; [known E; settled |].
  clear E.
  destruct (d =? "option")%string eqn:E; [known E; settled |].
  clear E.
  destruct (d =? "enable")%string eqn:E; [known E; settled |].
  clear E.
  destruct (d =? "default")%string eqn:E; [known E; settled |].
  clear E.
  destruct (d =? "forbidden")%string eqn:E; [known E; settled |].
  discriminate.
Qed.

Lemma foldl_option (on : string * H -> bool) (trace : list (string * H))
    (o : option Config.TokenValidatorOptions) :
  foldl (fun o d =>
           if on d
           then Some (Config.set_ValidateBearerHeader true
                        (default Config.new_options o))
           else o) o trace
  = if existsb on trace
    then Some (Config.set_ValidateBearerHeader true
                 (default Config.new_options o))
    else o.
Proof.
  revert o. induction trace as [| d trace IH]; intros o; simpl.
  - reflexivity.
  - rewrite IH. destruct (on d); simpl; [| reflexivity].
    destruct (existsb on trace); reflexivity.
Qed.

(** The conjuncts of [dispatched_effect], one by one. *)
Lemma dispatched_PrimaryInstance (d : string * H) (st st' : state C) :
  dispatched d st st' ->
  PrimaryInstance (p st') = PrimaryInstance (p st) || turns_on_primary d.
Proof. intros Hd. apply dispatched_effect in Hd. apply Hd. Qed.

Lemma dispatched_AuthRedirectQueryDisabled (d : string * H) (st st' : state C) :
  dispatched d st st' ->
  AuthRedirectQueryDisabled (p st')
    = AuthRedirectQueryDisabled (p st) || is_directive "disable" d.
Proof. intros Hd. apply dispatched_effect in Hd. apply Hd. Qed.

Lemma dispatched_ValidateAccessListPathClaim (d : string * H) (st st' : state C) :
  dispatched d st st' ->
  ValidateAccessListPathClaim (p st')
    = ValidateAccessListPathClaim (p st) || is_directive "validate" d.
Proof. intros Hd. apply dispatched_effect in Hd. apply Hd. Qed.

Lemma dispatched_PassClaimsWithHeaders (d : string * H) (st st' : state C) :
  dispatched d st st' ->
  PassClaimsWithHeaders (p st')
    = PassClaimsWithHeaders (p st) || is_directive "enable" d.
Proof. intros Hd. apply dispatched_effect in Hd. apply Hd. Qed.

Lemma dispatched_ValidateMethodPath (d : string * H) (st st' : state C) :
  dispatched d st st' ->
  ValidateMethodPath (p st')
    = ValidateMethodPath (p st) || (is_directive "validate" d || scoped d).
Proof. intros Hd. apply dispatched_effect in Hd. apply Hd. Qed.

Lemma dispatched_Context (d : string * H) (st st' : state C) :
  dispatched d st st' ->
  Context_ (p st') = default (Context_ (p st)) (context_of d).
Proof. intros Hd. apply dispatched_effect in Hd. apply Hd. Qed.

Lemma dispatched_AuthURLPath (d : string * H) (st st' : state C) :
  dispatched d st st' ->
  AuthURLPath (p st') = default (AuthURLPath (p st)) (auth_url_of d).
Proof. intros Hd. apply dispatched_effect in Hd. apply Hd. Qed.

Lemma dispatched_ForbiddenURL (d : string * H) (st st' : state C) :
  dispatched d st st' ->
  ForbiddenURL (p st') = default (ForbiddenURL (p st)) (forbidden_of d).
Proof. intros Hd. apply dispatched_effect in Hd. apply Hd. Qed.

Lemma dispatched_TokenValidatorOptions (d : string * H) (st st' : state C) :
  dispatched d st st' ->
  TokenValidatorOptions (p st')
    = (if is_directive "option" d
       then Some (Config.set_ValidateBearerHeader true
                    (default Config.new_options (TokenValidatorOptions (p st))))
       else TokenValidatorOptions (p st)).
Proof. intros Hd. apply dispatched_effect in Hd. apply Hd. Qed.

Lemma dispatched_TrustedTokens (d : string * H) (st st' : state C) :
  dispatched d st st' ->
  is_directive "trusted_tokens" d = false ->
  TrustedTokens (p st') = TrustedTokens (p st).
Proof.
  intros Hd Hno. apply dispatched_effect in Hd.
  destruct Hd as (_ & _ & _ & _ & _ & _ & _ & _ & _ & (new & -> & Hnew) & _).
  rewrite (Hnew Hno), app_nil_r. reflexivity.
Qed.

Lemma dispatched_AccessList (d : string * H) (st st' : state C) :
  dispatched d st st' ->
  AccessList (p st')
    = (AccessList (p st) ++
       if is_acl d then option_list (rule_of (C:=C) d) else [])%list /\
  (is_acl d = true -> is_Some (rule_of (C:=C) d)).
Proof.
  intros Hd. apply dispatched_effect in Hd.
  destruct Hd as (_ & _ & _ & _ & _ & _ & _ & _ & _ & _ & HA & Hr & _).
  split; assumption.
Qed.

Lemma dispatched_known (d : string * H) (st st' : state C) :
  dispatched d st st' -> fst d ∈ directives.
Proof. intros Hd. apply dispatched_effect in Hd. apply Hd. Qed.

(** *** What the parser returns *)





Lemma chain_AccessList (trace : list (string * H)) :
  forall st st' : state C,
    chain trace st st' ->
    exists entries,
      Forall2 (fun d entry => rule_of (C:=C) d = Some entry)
        (List.filter is_acl trace) entries /\
      AccessList (p st') = (AccessList (p st) ++ entries)%list.
Proof.
  induction trace as [| d trace IH]; intros st st'; simpl.
  - intros ->. exists []. rewrite app_nil_r. split; [constructor | reflexivity].
  - intros (st1 & Hd & Hc). apply IH in Hc as (entries & Hall & ->).
    apply dispatched_AccessList in Hd as [-> Hsome].
    destruct (is_acl d).
    + destruct Hsome as [entry Hentry]; [reflexivity |]. rewrite Hentry.
      exists (entry :: entries). split; [constructor; assumption |].
      simpl. rewrite <- app_assoc. reflexivity.
    + exists entries. rewrite app_nil_r. split; [assumption | reflexivity].
Qed.

Lemma chain_TrustedTokens (trace : list (string * H)) :
  forall st st' : state C,
    chain trace st st' ->
    existsb (is_directive "trusted_tokens") trace = false ->
    TrustedTokens (p st') = TrustedTokens (p st).
Proof.
  induction trace as [| d trace IH]; intros st st'; simpl.
  - intros ->. reflexivity.
  - intros (st1 & Hd & Hc) Hno. apply orb_false_elim in Hno as [Hd0 Hno].
    rewrite (IH _ _ Hc Hno). exact (dispatched_TrustedTokens d _ _ Hd Hd0).
Qed.

Lemma chain_known (trace : list (string * H)) :
  forall st st' : state C,
    chain trace st st' -> Forall (fun d => fst d ∈ directives) trace.
Proof.
  induction trace as [| d trace IH]; intros st st'; simpl.
  - constructor.
  - intros (st1 & Hd & Hc). constructor; [| eapply IH; exact Hc].
    eapply dispatched_known. exact Hd.
Qed.


(** X19.  A provider the parser returns has trusted tokens only when the
    configuration has a [trusted_tokens] directive, and every directive it
    has is one of the twelve the switch knows. *)
Theorem trusted_tokens_from_directive
    (fuel : nat) (h : H) (provider : AuthProvider C) :
  parseCaddyfileTokenValidator fuel h = Some (Return provider) ->
  exists st h' trace,
    segments fuel (mkState initial_provider true) h
      = Some (Return (st, h', trace)) /\
    Forall (fun d => fst d ∈ directives) trace /\
    (existsb (is_directive "trusted_tokens") trace = false ->
     TrustedTokens provider = []).
Proof.
  intros Hret.
  destruct (parser_returns_run _ _ _ Hret) as (st & h' & trace & Hseg & Hc & Hf).
  exists st, h', trace. split; [exact Hseg |].
  split; [eapply chain_known; exact Hc |].
  intros Hno. apply finish_fields in Hf as [_ ->]. simpl.
  apply (chain_TrustedTokens _ _ _ Hc Hno).
Qed.

(** X20.  What follows the loops.  When the loops return, the parser refuses
    a configuration whose last [context] directive gives the empty string,
    with the error "context directive must not be empty" at the place the
    loops ended, and returns a provider for any other. *)
Theorem empty_context_refused
    (fuel : nat) (h h' : H) (st : state C) (trace : list (string * H)) :
  segments fuel (mkState initial_provider true) h
    = Some (Return (st, h', trace)) ->
  if (last_set context_of "default" trace =? "")%string
  then parseCaddyfileTokenValidator fuel h
       = Some (Fail (Errf h' "context directive must not be empty" []))
  else exists provider,
         parseCaddyfileTokenValidator fuel h = Some (Return provider).
Proof.
  intros Hseg. pose proof (segments_chain _ _ _ _ _ _ Hseg) as Hc.
  pose proof (chain_fold (fun st => Context_ (p st))
                (fun s d => default s (context_of d))
                dispatched_Context _ _ _ Hc) as Hctx.
  rewrite foldl_last_set in Hctx. simpl in Hctx. rewrite <- Hctx.
  unfold parseCaddyfileTokenValidator. rewrite Hseg. simpl. unfold finish.
  destruct (Context_ (p st) =? "")%string; [reflexivity |].
  destruct (negb (defaultDenyACL st)); eauto.
Qed.

(** *** Directives the switch refuses *)

Lemma root_directive_unknown (fuel : nat) (d : string) (st : state C) (h : H) :
  d ∉ directives ->
  root_directive fuel d st h
    = fail (Errf h "unsupported root directive: %s" [S_ d]).
Proof.
  intros Hd. unfold root_directive.
  repeat match goal with
         | |- context [(d =? ?lit)%string] =>
             let E := fresh in
             destruct (d =? lit)%string eqn:E;
             [apply String.eqb_eq in E; exfalso; apply Hd; rewrite E;
              unfold directives;
              repeat first [apply list_elem_of_here | apply list_elem_of_further]
             |]
         end.
  reflexivity.
Qed.

(** X21.  A directive that is not one of the twelve the switch knows is
    refused: a parser that comes to it returns the error "unsupported root
    directive" on its name, at its place, and no provider. *)
Theorem unknown_directive_refused
    (fuel fuel' : nat) (h h' : H) (st' : state C) :
  reaches fuel (mkState initial_provider true) h st' h' fuel' ->
  Val h' ∉ directives ->
  parseCaddyfileTokenValidator fuel h
    = Some (Fail (Errf h' "unsupported root directive: %s" [S_ (Val h')])).
Proof.
  intros Hreach Hd.
  eapply parser_fails_where_directive_fails; [exact Hreach |].
  apply root_directive_unknown. exact Hd.
Qed.

(** The directives that read their arguments with [RemainingArgs] and
    refuse an empty list, and those that read one with [NextArg]. *)
Lemma root_directive_no_value (fuel : nat) (d : string) (st : state C) (h : H) :
  (d ∈ ["primary"; "context"; "auth_url"; "allow"; "deny"; "disable";
        "validate"; "option"] ->
   args_of (d, h) = [] ->
   root_directive fuel d st h
     = fail (Errorf "%s argument has no value" [S_ d])) /\
  (d ∈ ["default"; "forbidden"] ->
   fst (NextArg h) = false ->
   root_directive fuel d st h
     = fail (Errf (snd (NextArg h)) "%s argument has no value" [S_ d])).
Proof.
  unfold args_of. simpl. split; intros Hd Hno;
    repeat (apply elem_of_cons in Hd as [-> | Hd]);
    try (apply elem_of_nil in Hd; contradiction);
    unfold root_directive, acl_directive; simpl.
  1-8: destruct (RemainingArgs h) as [args h1]; simpl in Hno; subst;
    reflexivity.
  all: destruct (NextArg h) as [ok h1]; simpl in Hno; subst; reflexivity.
Qed.

(** X22.  A directive without its argument is refused.  A parser that comes
    to a [primary], [context], [auth_url], [allow], [deny], [disable],
    [validate] or [option] with no argument left on the line, or to a
    [default] or [forbidden] with no next argument, returns the error
    "argument has no value" on the name of the directive, and no provider. *)
Theorem missing_argument_refused
    (fuel fuel' : nat) (h h' : H) (st' : state C) :
  reaches fuel (mkState initial_provider true) h st' h' fuel' ->
  (Val h' ∈ ["primary"; "context"; "auth_url"; "allow"; "deny"; "disable";
             "validate"; "option"] ->
   args_of (Val h', h') = [] ->
   parseCaddyfileTokenValidator fuel h
     = Some (Fail (Errorf "%s argument has no value" [S_ (Val h')]))) /\
  (Val h' ∈ ["default"; "forbidden"] ->
   fst (NextArg h') = false ->
   parseCaddyfileTokenValidator fuel h
     = Some (Fail (Errf (snd (NextArg h')) "%s argument has no value"
                     [S_ (Val h')]))).
Proof.
  intros Hreach.
  split; intros Hd Hno;
    (eapply parser_fails_where_directive_fails; [exact Hreach |]);
    apply root_directive_no_value; assumption.
Qed.

(** X23.  Arguments past the first.  [primary], [disable], [validate] and
    [option] read their first argument and ignore the others: the switch
    leaves the state, or returns the error, it does with the first argument
    alone.  [context] and [auth_url] refuse a second argument, which they
    accept alone. *)
Theorem arguments_past_the_first
    (fuel : nat) (d arg0 arg1 : string) (rest : list string)
    (st : state C) (h h1 h2 h3 : H) :
  RemainingArgs h = (arg0 :: arg1 :: rest, h1) ->
  RemainingArgs h2 = ([arg0], h3) ->
  (d ∈ ["primary"; "disable"; "validate"; "option"] ->
   state_after (root_directive fuel d st h)
     = state_after (root_directive fuel d st h2)) /\
  (d ∈ ["context"; "auth_url"] ->
   root_directive fuel d st h
     = fail (Errorf "%s argument value of %s is unsupported" [S_ d; S_ arg0]) /\
   exists st', root_directive fuel d st h2 = ret (st', h3)).
Proof.
  intros Hargs Hargs2. split; intros Hd;
    repeat (apply elem_of_cons in Hd as [-> | Hd]);
    try (apply elem_of_nil in Hd; contradiction);
    unfold root_directive; simpl; rewrite Hargs, Hargs2;
    first [ split; [reflexivity | eauto]
          | repeat case_match; reflexivity ].
Qed.

(** X24.  [primary] takes six words, in lower case: [yes], [true] and [on]
    make the instance primary, [no], [false] and [off] leave it as it is, and
    any other first argument is refused as unsupported. *)
Theorem primary_takes_six_words
    (fuel : nat) (arg0 : string) (rest : list string)
    (st : state C) (h h1 : H) :
  RemainingArgs h = (arg0 :: rest, h1) ->
  (arg0 ∈ ["yes"; "true"; "on"] ->
   root_directive fuel "primary" st h
     = ret (mkState (set_PrimaryInstance true (p st)) (defaultDenyACL st), h1)) /\
  (arg0 ∈ ["no"; "false"; "off"] ->
   root_directive fuel "primary" st h
     = ret (mkState (p st) (defaultDenyACL st), h1)) /\
  (arg0 ∉ ["yes"; "true"; "on"; "no"; "false"; "off"] ->
   root_directive fuel "primary" st h
     = fail (Errorf "%s argument value of %s is unsupported"
               [S_ "primary"; S_ arg0])).
Proof.
  intros Hargs. unfold root_directive. simpl. rewrite Hargs.
  unfold isSwitchArg, isEnabledArg.
  split; [| split]; intros Hd.
  1, 2: repeat (apply elem_of_cons in Hd as [-> | Hd]);
    try (apply elem_of_nil in Hd; contradiction); reflexivity.
  repeat match goal with
         | |- context [(arg0 =? ?lit)%string] =>
             let E := fresh in
             destruct (arg0 =? lit)%string eqn:E;
             [apply String.eqb_eq in E; exfalso; apply Hd; rewrite E;
              repeat first [apply list_elem_of_here | apply list_elem_of_further]
             |]
         end.
  reflexivity.
Qed.

Lemma foldl_insert_lookup (lines : list (string * string)) :
  forall (props : gmap string Value) (name : string),
    foldl (fun m line => <[fst line := VString (snd line)]> m) props lines
      !! name
    = match last_argument name lines with
      | Some arg => Some (VString arg)
      | None => props !! name
      end.
Proof.
  unfold last_argument.
  induction lines as [| line lines IH]; intros props name.
  - reflexivity.
  - cbn [foldl]. rewrite IH, filter_cons.
    destruct (decide (fst line = name)) as [Heq | Hne].
    + rewrite fmap_cons.
      destruct (snd <$> filter (fun line => fst line = name) lines)
        as [| arg args] eqn:Hrest.
      * simpl. rewrite Heq. apply lookup_insert_eq.
      * rewrite last_cons_cons. destruct (last (arg :: args)) eqn:Hl;
          [reflexivity |].
        apply last_None in Hl. discriminate.
    + destruct (last (snd <$> filter (fun line => fst line = name) lines));
        [reflexivity |].
      apply lookup_insert_ne. assumption.
Qed.

(** The loop over a backend block stores its lines, one after the other. *)
Lemma tokenConfigProps_loop_lines (fuel : nat) (subDirective : string)
    (subNesting : Z) :
  forall (props props' : gmap string Value) (h h' : H),
    tokenConfigProps_loop fuel subDirective subNesting props h
      = Some (Return (props', h')) ->
    props' = foldl (fun m line => <[fst line := VString (snd line)]> m) props
               (backend_lines fuel subNesting h).
Proof.
  induction fuel as [| fuel IH]; intros props props' h h'; [discriminate |].
  simpl. destruct (NextBlock subNesting h) as [[] h1].
  - destruct (NextArg h1) as [[] h2] eqn:Harg; simpl.
    + destruct (Val h1 =? "token_rsa_file")%string;
        intros Hr; apply IH in Hr; exact Hr.
    + destruct (Val h1 =? "token_rsa_file")%string; discriminate.
  - unfold ret. intros [= <- <-]. reflexivity.
Qed.

(** X25.  The properties of a trusted-token backend are handed on as the
    strings of the configuration.  When the loop over the lines of a backend
    returns, the value it leaves under a name is the argument, as a string,
    of the last line of the block with this name, and what the map held
    before under a name no line has; so the map only grows, and holds
    strings only when it held strings only. *)
Theorem backend_properties_are_strings
    (fuel : nat) (subDirective : string) (subNesting : Z)
    (props props' : gmap string Value) (h h' : H) :
  tokenConfigProps_loop fuel subDirective subNesting props h
    = Some (Return (props', h')) ->
  (forall name,
     props' !! name
     = match last_argument name (backend_lines fuel subNesting h) with
       | Some arg => Some (VString arg)
       | None => props !! name
       end) /\
  dom props ⊆ dom props' /\
  (map_Forall (fun _ v => is_string v) props ->
   map_Forall (fun _ v => is_string v) props').
Proof.
  intros Hr. apply tokenConfigProps_loop_lines in Hr.
  assert (Hlookup : forall name,
            props' !! name
            = match last_argument name (backend_lines fuel subNesting h) with
              | Some arg => Some (VString arg)
              | None => props !! name
              end)
    by (intros name; rewrite Hr; apply foldl_insert_lookup).
  split; [exact Hlookup |]. split.
  - intros name Hin. apply elem_of_dom. apply elem_of_dom in Hin.
    rewrite Hlookup.
    destruct (last_argument name (backend_lines fuel subNesting h)); eauto.
  - intros Hall name v Hv. rewrite Hlookup in Hv.
    destruct (last_argument name (backend_lines fuel subNesting h)) as [arg|].
    + injection Hv as <-. exists arg. reflexivity.
    + exact (Hall name v Hv).
Qed.

End ParserFurther.

Section ParserFurtherOnTokens.
Import TokenList AccessListSpec Caddyfile Samples.






(** A witness of X19. *)
Lemma trusted_tokens_from_directive_witness :
  exists st h' trace,
    segments 40 (mkState initial_provider true) every_directive
      = Some (Return (st, h', trace)) /\
    Forall (fun d => fst d ∈ directives) trace /\
    (existsb (is_directive "trusted_tokens") trace = false ->
     TrustedTokens every_directive_provider = []).
Proof.
  apply (trusted_tokens_from_directive 40 every_directive
           every_directive_provider).
  vm_compute. reflexivity.
Defined.

(** A witness of X20: [jwt { context "" }], the empty string quoted in the
    configuration. *)
Lemma empty_context_refused_witness :
  parseCaddyfileTokenValidator (C:=unit) 10 (one_directive ["context"; ""])
  = Some (Fail (Errf (placed 5 0 (one_directive ["context"; ""]))
                  "context directive must not be empty" [])).
Proof.
  refine (empty_context_refused 10 (one_directive ["context"; ""])
            (placed 5 0 (one_directive ["context"; ""]))
            (mkState (set_Context "" initial_provider) true)
            [("context", placed 3 1 (one_directive ["context"; ""]))] _).
  vm_compute. reflexivity.
Defined.

#[local] Ltac reached line :=
  apply (reaches_block 9 _ _ (placed 1 0 (one_directive line)));
  [vm_compute; reflexivity | apply block_reaches_first; vm_compute; reflexivity].

(** A witness of X21: [jwt { realm x }]. *)
Lemma unknown_directive_refused_witness :
  parseCaddyfileTokenValidator (C:=unit) 10 (one_directive ["realm"; "x"])
  = Some (Fail (Errf (placed 3 1 (one_directive ["realm"; "x"]))
                  "unsupported root directive: %s" [S_ "realm"])).
Proof.
  refine (unknown_directive_refused 10 8 (one_directive ["realm"; "x"])
            (placed 3 1 (one_directive ["realm"; "x"]))
            (mkState initial_provider true) _ _).
  - reached ["realm"; "x"].
  - change (Val (placed 3 1 (one_directive ["realm"; "x"]))) with "realm".
    unfold directives. intros Hin.
    repeat (apply elem_of_cons in Hin as [Hin | Hin]; [discriminate Hin |]).
    apply elem_of_nil in Hin. exact Hin.
Defined.

(** A witness of X22: [jwt { primary }]. *)
Lemma missing_argument_refused_witness :
  parseCaddyfileTokenValidator (C:=unit) 10 (one_directive ["primary"])
  = Some (Fail (Errorf "%s argument has no value" [S_ "primary"])).
Proof.
  refine (proj1 (missing_argument_refused 10 8 (one_directive ["primary"])
                   (placed 3 1 (one_directive ["primary"]))
                   (mkState initial_provider true) _) _ _).
  - reached ["primary"].
  - apply list_elem_of_here.
  - reflexivity.
Defined.

(** A witness of X23: [primary yes please] does what [primary yes] does. *)
Lemma arguments_past_the_first_witness :
  state_after
    (root_directive (C:=unit) 5 "primary" (mkState initial_provider true)
       (placed 3 1 (one_directive ["primary"; "yes"; "please"])))
  = state_after
      (root_directive (C:=unit) 5 "primary" (mkState initial_provider true)
         (placed 3 1 (one_directive ["primary"; "yes"]))).
Proof.
  refine (proj1 (arguments_past_the_first 5 "primary" "yes" "please" []
                   (mkState initial_provider true)
                   (placed 3 1 (one_directive ["primary"; "yes"; "please"]))
                   (placed 5 1 (one_directive ["primary"; "yes"; "please"]))
                   (placed 3 1 (one_directive ["primary"; "yes"]))
                   (placed 4 1 (one_directive ["primary"; "yes"]))
                   _ _) _).
  - reflexivity.
  - reflexivity.
  - apply list_elem_of_here.
Defined.

(** A witness of X24: [primary on]. *)
Lemma primary_takes_six_words_witness :
  root_directive (C:=unit) 5 "primary" (mkState initial_provider true)
    (placed 3 1 (one_directive ["primary"; "on"]))
  = ret (mkState (set_PrimaryInstance true initial_provider) true,
         placed 4 1 (one_directive ["primary"; "on"])).
Proof.
  refine (proj1 (primary_takes_six_words 5 "on" []
                   (mkState initial_provider true)
                   (placed 3 1 (one_directive ["primary"; "on"]))
                   (placed 4 1 (one_directive ["primary"; "on"])) _) _).
  - reflexivity.
  - apply list_elem_of_further, list_elem_of_further, list_elem_of_here.
Defined.

(** A witness of X25: the backend [static_secret] of [one_backend], where
    [token_name] comes twice. *)
Lemma backend_properties_are_strings_witness :
  last_argument "token_name" (backend_lines 10 2 (placed 5 2 one_backend))
    = Some "access" /\
  (<["token_name" := VString "access"]>
     (<["token_secret" := VString "abc"]> (∅ : gmap string Value)))
    !! "token_name"
  = Some (VString "access").
Proof.
  split; [vm_compute; reflexivity |].
  refine (proj1 (backend_properties_are_strings 10 "static_secret" 2 ∅ _
                   (placed 5 2 one_backend) (placed 13 2 one_backend) _)
            "token_name").
  vm_compute. reflexivity.
Defined.

End ParserFurtherOnTokens.
